(** * Temperature toolkit: converter, record and analytics

    A shallow embedding of [temperature_toolkit] (converter.py, record.py,
    analytics.py).  Python floats are IEEE-754 binary64 values, modelled by
    the Standard Library's executable [spec_float] at precision 53; Python
    exceptions are values of an error monad; a dictionary is a [gmap]. *)

From Stdlib Require Import Morphisms ZArith QArith Qabs Qpower Lia Lqa.
From Stdlib Require Import String Ascii List Bool.
From Stdlib Require Import Floats.SpecFloat.
From stdpp Require Import gmap strings.

Local Open Scope Z_scope.

(** ** The fragment of Python the toolkit relies on *)

(** Exceptions the builtins used by the toolkit can raise. *)
Inductive exn : Type :=
| ValueError (msg : string)
| ZeroDivisionError
| IndexError.

Inductive result (A : Type) : Type :=
| Ok (a : A)
| Raise (e : exn).

Arguments Ok {A} a.
Arguments Raise {A} e.

Definition bind {A B : Type} (c : result A) (k : A -> result B) : result B :=
  match c with
  | Ok a => k a
  | Raise e => Raise e
  end.

Notation "'let*' x ':=' c 'in' k" := (bind c (fun x => k))
  (at level 10, x name, c at level 100, k at level 200).

(** A list comprehension whose element expression may raise: elements are
    evaluated left to right and the first exception escapes. *)
Fixpoint comprehension {A B : Type} (f : A -> result B) (xs : list A)
  : result (list B) :=
  match xs with
  | [] => Ok []
  | x :: xs' =>
      let* y := f x in
      let* ys := comprehension f xs' in
      Ok (y :: ys)
  end.

(** [str.lower()] on byte strings: only the ASCII letters have a case. *)
Definition ascii_lower (c : ascii) : ascii :=
  let n := N_of_ascii c in
  if ((65 <=? n) && (n <=? 90))%N then ascii_of_N (n + 32) else c.

Fixpoint lower (s : string) : string :=
  match s with
  | EmptyString => EmptyString
  | String c s' => String (ascii_lower c) (lower s')
  end.

(** [x in xs] for a list of strings. *)
Definition py_in (x : string) (xs : list string) : bool :=
  existsb (String.eqb x) xs.

(** [lst[i]] for a non-negative index. *)
Definition py_index {A : Type} (xs : list A) (i : nat) : result A :=
  match nth_error xs i with
  | Some x => Ok x
  | None => Raise IndexError
  end.

(** Nearest integer to [a / b] for [b > 0], ties to the even integer: the
    decimal rounding [round(x, ndigits)] performs on the exact value. *)
Definition div_half_even (a b : Z) : Z :=
  let q := a / b in
  match 2 * (a mod b) ?= b with
  | Lt => q
  | Gt => q + 1
  | Eq => if Z.even q then q else q + 1
  end.

(** ** Binary64 floats *)
Module B64.

Definition prec : Z := 53.
Definition emax : Z := 1024.

Definition float : Type := spec_float.

Definition nan : float := S754_nan.
Definition neg_inf : float := S754_infinity true.
Definition pos_inf : float := S754_infinity false.
Definition zero : float := S754_zero false.

Definition is_nan (x : float) : bool :=
  match x with S754_nan => true | _ => false end.

(** The double nearest to the rational [n / d] (what reading a decimal
    literal gives): one correctly rounded division of the two integers. *)
Definition of_ratio (n : Z) (d : positive) : float :=
  match n with
  | Z0 => S754_zero false
  | Zpos p => SFdiv prec emax (S754_finite false p 0) (S754_finite false d 0)
  | Zneg p => SFdiv prec emax (S754_finite true p 0) (S754_finite false d 0)
  end.

(** An [int] operand promoted to [float]. *)
Definition of_int (n : Z) : float := binary_normalize prec emax n 0 false.

Definition add : float -> float -> float := SFadd prec emax.
Definition sub : float -> float -> float := SFsub prec emax.
Definition mul : float -> float -> float := SFmul prec emax.
Definition abs : float -> float := SFabs.

(** [x < y], [x <= y]; [x > y] is [ltb y x] and [x >= y] is [leb y x]. *)
Definition ltb : float -> float -> bool := SFltb.
Definition leb : float -> float -> bool := SFleb.
Definition eqb : float -> float -> bool := SFeqb.

(** [x / n] with an [int] divisor: the divisor is promoted to [float] and
    a zero divisor raises. *)
Definition truediv_int (x : float) (n : Z) : result float :=
  if n =? 0 then Raise ZeroDivisionError
  else Ok (SFdiv prec emax x (of_int n)).

(** [round(x, 2)]: nan, infinities and zeros round to themselves; a finite
    [x] is rounded, on its exact value and ties to even, to an integer
    number of hundredths, and the double nearest to that decimal is
    returned; the sign of [x] is kept when the hundredths vanish. *)
Definition round2 (x : float) : float :=
  match x with
  | S754_finite s m e =>
      let hundredths :=
        match e with
        | Zneg k => div_half_even (100 * Zpos m) (Z.pow_pos 2 k)
        | _ => 100 * Zpos m * 2 ^ e
        end in
      match hundredths with
      | Zpos p =>
          SFdiv prec emax (S754_finite s p 0) (S754_finite false 100 0)
      | _ => S754_zero s
      end
  | _ => x
  end.

(** [sum(xs)]: left-to-right addition starting from the integer 0.  (An
    interpreter that sums floats with compensation returns the same double
    whenever the partial sums are exact; no property below depends on the
    order of the additions.) *)
Definition py_sum (xs : list float) : float :=
  fold_left add xs (of_int 0).

(** [min(xs)] and [max(xs)]: the first element is kept until a later one
    compares strictly below (above) the current choice. *)
Definition py_min (xs : list float) : result float :=
  match xs with
  | [] => Raise (ValueError "min() arg is an empty sequence")
  | x :: rest => Ok (fold_left (fun m v => if ltb v m then v else m) rest x)
  end.

Definition py_max (xs : list float) : result float :=
  match xs with
  | [] => Raise (ValueError "max() arg is an empty sequence")
  | x :: rest => Ok (fold_left (fun m v => if ltb m v then v else m) rest x)
  end.

End B64.

(** ** converter.py *)

(** The arithmetic [convert] uses, as an interface; [binary64] is the
    arithmetic of Python's [float]. *)
Record Arith : Type := {
  num : Type;
  of_int : Z -> num;
  of_ratio : Z -> positive -> num;
  add : num -> num -> num;
  sub : num -> num -> num;
  mul : num -> num -> num;
  truediv_int : num -> Z -> result num;
  round2 : num -> num
}.

Definition binary64 : Arith := {|
  num := B64.float;
  of_int := B64.of_int;
  of_ratio := B64.of_ratio;
  add := B64.add;
  sub := B64.sub;
  mul := B64.mul;
  truediv_int := B64.truediv_int;
  round2 := B64.round2
|}.

Module Converter.
Section Convert.

Variable A : Arith.

Definition valid_scales : list string :=
  ["celsius"; "fahrenheit"; "kelvin"]%string.

Definition invalid_original (original_scale : string) : string :=
  "Invalid original scale: " +:+ original_scale
    +:+ ". Use 'celsius', 'fahrenheit', or 'kelvin'.".

Definition invalid_target (target_scale : string) : string :=
  "Invalid target scale: " +:+ target_scale
    +:+ ". Use 'celsius', 'fahrenheit', or 'kelvin'.".

Definition convert (value : num A) (original_scale target_scale : string)
  : result (num A) :=
  let original_scale := lower original_scale in
  let target_scale := lower target_scale in
  if negb (py_in original_scale valid_scales) then
    Raise (ValueError (invalid_original original_scale))
  else if negb (py_in target_scale valid_scales) then
    Raise (ValueError (invalid_target target_scale))
  else if String.eqb original_scale target_scale then
    Ok (round2 A value)
  else
    let* celsius :=
      if String.eqb original_scale "fahrenheit" then
        truediv_int A (mul A (sub A value (of_int A 32)) (of_int A 5)) 9
      else if String.eqb original_scale "kelvin" then
        Ok (sub A value (of_ratio A 27315 100))
      else Ok value in
    let* converted_value :=
      if String.eqb target_scale "fahrenheit" then
        let* ninths := truediv_int A (mul A celsius (of_int A 9)) 5 in
        Ok (add A ninths (of_int A 32))
      else if String.eqb target_scale "kelvin" then
        Ok (add A celsius (of_ratio A 27315 100))
      else Ok celsius in
    Ok (round2 A converted_value).

End Convert.
End Converter.

Definition float : Type := B64.float.

(** [convert] as Python runs it. *)
Definition convert : float -> string -> string -> result float :=
  Converter.convert binary64.

(** ** record.py *)

(** The truth value of a list: an empty list is false. *)
Definition truthy {A : Type} (xs : list A) : bool :=
  match xs with
  | [] => false
  | _ :: _ => true
  end.

(** [len(xs)] as a Python [int]. *)
Definition len {A : Type} (xs : list A) : Z := Z.of_nat (length xs).

Record TemperatureRecord : Type := {
  date : string;
  readings : list float;
  scale : string
}.

(** [TemperatureRecord.__init__]. *)
Definition init (date : string) (readings : list float) (scale : string)
  : TemperatureRecord :=
  {| date := date; readings := readings; scale := lower scale |}.

(** [convert_to] mutates [self]: the method maps the object before the call
    to its outcome and the object after the call.  The comprehension is
    evaluated in full before either attribute is assigned. *)
Definition convert_to (target_scale : string) (self : TemperatureRecord)
  : result unit * TemperatureRecord :=
  let target_scale := lower target_scale in
  if String.eqb target_scale (scale self) then (Ok tt, self)
  else
    match
      comprehension (fun temp => convert temp (scale self) target_scale)
        (readings self)
    with
    | Raise e => (Raise e, self)
    | Ok converted =>
        (Ok tt,
         {| date := date self; readings := converted; scale := target_scale |})
    end.

(** The dictionary [get_summary] returns, with its five fixed keys. *)
Record Summary : Type := {
  summary_date : string;
  summary_scale : string;
  summary_min : float;
  summary_max : float;
  summary_avg : float
}.

(** The sentinel of the empty case is the integer [0], read here as the
    float it equals. *)
Definition get_summary (self : TemperatureRecord) : result Summary :=
  if negb (truthy (readings self)) then
    Ok {| summary_date := date self;
          summary_scale := scale self;
          summary_min := B64.of_int 0;
          summary_max := B64.of_int 0;
          summary_avg := B64.of_int 0 |}
  else
    let* lo := B64.py_min (readings self) in
    let* hi := B64.py_max (readings self) in
    let* mean :=
      B64.truediv_int (B64.py_sum (readings self)) (len (readings self)) in
    Ok {| summary_date := date self;
          summary_scale := scale self;
          summary_min := B64.round2 lo;
          summary_max := B64.round2 hi;
          summary_avg := B64.round2 mean |}.

Definition is_above_threshold (self : TemperatureRecord) (threshold : float)
  : bool :=
  forallb (fun temp => B64.ltb threshold temp) (readings self).

Definition is_at_or_above_threshold (self : TemperatureRecord)
  (threshold : float) : bool :=
  forallb (fun temp => B64.leb threshold temp) (readings self).

(** ** analytics.py *)

Definition average_temperature_across_days (records : list TemperatureRecord)
  : result float :=
  let all_readings := flat_map readings records in
  if truthy all_readings then
    let* mean := B64.truediv_int (B64.py_sum all_readings) (len all_readings) in
    Ok (B64.round2 mean)
  else Ok (B64.of_int 0).

(** The local function [avg_in_celsius] of [hottest_day]. *)
Definition avg_in_celsius (record : TemperatureRecord) : result float :=
  if negb (truthy (readings record)) then Ok B64.neg_inf
  else
    let* temps_c :=
      comprehension (fun t => convert t (scale record) "celsius")
        (readings record) in
    B64.truediv_int (B64.py_sum temps_c) (len temps_c).

(** The loop of [max(iterable, key=...)]: the current choice is replaced
    only by an item whose key compares strictly greater. *)
Fixpoint max_key_loop {A : Type} (key : A -> result float)
  (maxitem : A) (maxval : float) (rest : list A) : result A :=
  match rest with
  | [] => Ok maxitem
  | item :: rest' =>
      let* val := key item in
      if B64.ltb maxval val then max_key_loop key item val rest'
      else max_key_loop key maxitem maxval rest'
  end.

Definition py_max_key {A : Type} (key : A -> result float) (xs : list A)
  : result A :=
  match xs with
  | [] => Raise (ValueError "max() arg is an empty sequence")
  | x :: rest =>
      let* maxval := key x in
      max_key_loop key x maxval rest
  end.

Definition hottest_day (records : list TemperatureRecord) : result string :=
  if negb (truthy records) then Ok ""%string
  else
    let* hottest := py_max_key avg_in_celsius records in
    Ok (date hottest).

Definition detect_extreme_days (records : list TemperatureRecord)
  (threshold : float) : list string :=
  map date
    (List.filter
       (fun record =>
          existsb (fun temp => B64.ltb threshold temp) (readings record))
       records).

(** The body of the loop of [temperature_range_for_each_day] for one
    record: the pair stored under the record's date. *)
Definition day_range (record : TemperatureRecord) : result (float * float) :=
  if truthy (readings record) then
    let* lo := B64.py_min (readings record) in
    let* hi := B64.py_max (readings record) in
    Ok (B64.round2 lo, B64.round2 hi)
  else Ok (B64.of_int 0, B64.of_int 0).

Fixpoint range_loop (records : list TemperatureRecord)
  (result_ : gmap string (float * float))
  : result (gmap string (float * float)) :=
  match records with
  | [] => Ok result_
  | record :: rest =>
      let* entry := day_range record in
      range_loop rest (<[date record := entry]> result_)
  end.

Definition temperature_range_for_each_day (records : list TemperatureRecord)
  : result (gmap string (float * float)) :=
  range_loop records ∅.

(** [range(1, n)]. *)
Definition range_from_1 (n : nat) : list nat := seq 1 (n - 1).

Fixpoint trend_loop (temps : list float) (indices : list nat)
  (trend : list string) : result (list string) :=
  match indices with
  | [] => Ok trend
  | i :: rest =>
      let* cur := py_index temps i in
      let* prev := py_index temps (i - 1) in
      if B64.ltb prev cur then trend_loop temps rest (trend ++ ["up"%string])
      else if B64.ltb cur prev then
        trend_loop temps rest (trend ++ ["down"%string])
      else trend_loop temps rest (trend ++ ["same"%string])
  end.

Definition temperature_trend (temps : list float) : result (list string) :=
  if (len temps <? 2) then Ok []
  else trend_loop temps (range_from_1 (length temps)) [].

Fixpoint spike_loop (temps : list float) (threshold : float)
  (indices : list nat) : result bool :=
  match indices with
  | [] => Ok false
  | i :: rest =>
      let* cur := py_index temps i in
      let* prev := py_index temps (i - 1) in
      if B64.leb threshold (B64.abs (B64.sub cur prev)) then Ok true
      else spike_loop temps threshold rest
  end.

(** [threshold] is keyword-only and optional: [None] is an omitted
    argument, which takes the default [5]. *)
Definition detect_spike (temps : list float) (threshold : option float)
  : result bool :=
  let threshold := default (B64.of_int 5) threshold in
  spike_loop temps threshold (range_from_1 (length temps)).

(** ** The order of binary64 values

    [rank] places every value that is not a nan on a lexicographic scale:
    class (negative infinity, negative, zero, positive, positive infinity),
    then exponent, then mantissa, the last two mirrored for negatives. *)
Definition rank (x : float) : Z * (Z * Z) :=
  match x with
  | S754_infinity true => (-2, (0, 0))
  | S754_finite true m e => (-1, (- e, - Zpos m))
  | S754_zero _ => (0, (0, 0))
  | S754_finite false m e => (1, (e, Zpos m))
  | S754_infinity false => (2, (0, 0))
  | S754_nan => (3, (0, 0))
  end.

Definition rank_lt (a b : Z * (Z * Z)) : Prop :=
  a.1 < b.1 \/ (a.1 = b.1 /\
    (a.2.1 < b.2.1 \/ (a.2.1 = b.2.1 /\ a.2.2 < b.2.2))).

Definition rank_le (a b : Z * (Z * Z)) : Prop := rank_lt a b \/ a = b.

(** [x <= y] and [x < y] on values, as propositions. *)
Definition fle (x y : float) : Prop := B64.leb x y = true.
Definition flt (x y : float) : Prop := B64.ltb x y = true.
Definition not_nan (x : float) : Prop := B64.is_nan x = false.

(** A scale argument is valid when its lower-case form is one of the three
    scale names. *)
Definition valid_scale (s : string) : Prop :=
  In (lower s) Converter.valid_scales.

(** The errors [convert] raises for an argument that is not a scale. *)
Definition invalid_scale_error (e : exn) : Prop :=
  exists s : string,
    e = ValueError (Converter.invalid_original s) \/
    e = ValueError (Converter.invalid_target s).

(** [converts_to self target temp c]: converting the reading [temp] of
    [self] to the lower-cased [target] scale returns [c]. *)
Definition converts_to (self : TemperatureRecord) (target : string)
  (temp c : float) : Prop :=
  convert temp (scale self) (lower target) = Ok c.

(** A record has a reading strictly above the threshold. *)
Definition has_reading_above (threshold : float) (record : TemperatureRecord)
  : Prop :=
  exists temp, In temp (readings record) /\ flt threshold temp.

(** [selected_dates P records dates]: [dates] lists, in the order of
    [records], the date of each record that satisfies [P], and nothing
    else. *)
Inductive selected_dates (P : TemperatureRecord -> Prop)
  : list TemperatureRecord -> list string -> Prop :=
| selected_nil : selected_dates P [] []
| selected_keep (r : TemperatureRecord) (rs : list TemperatureRecord)
    (ds : list string) :
    P r -> selected_dates P rs ds -> selected_dates P (r :: rs) (date r :: ds)
| selected_skip (r : TemperatureRecord) (rs : list TemperatureRecord)
    (ds : list string) :
    ~ P r -> selected_dates P rs ds -> selected_dates P (r :: rs) ds.

(** [lo] and [hi] are readings of [xs] and, when no reading is a nan, bound
    every reading from below and from above. *)
Definition extremes (xs : list float) (lo hi : float) : Prop :=
  In lo xs /\ In hi xs /\
  (Forall not_nan xs -> Forall (fun temp => fle lo temp /\ fle temp hi) xs).

(** Some adjacent pair of [temps] differs, in absolute value, by at least
    [threshold]. *)
Definition adjacent_jump (temps : list float) (threshold : float) : Prop :=
  exists (i : nat) (prev cur : float),
    nth_error temps i = Some prev /\ nth_error temps (S i) = Some cur /\
    fle threshold (B64.abs (B64.sub cur prev)).

(** The rational number a finite binary64 value stands for. *)
Definition exact_value (x : float) : option Q :=
  match x with
  | S754_zero _ => Some 0%Q
  | S754_finite s m e =>
      let magnitude :=
        match e with
        | Zneg k => Qmake (Zpos m) (Pos.pow 2 k)
        | _ => inject_Z (Zpos m * 2 ^ e)
        end in
      Some (if s then Qopp magnitude else magnitude)
  | _ => None
  end.

(** [x] and [y] are finite and their exact values differ by at most
    [tolerance]. *)
Definition within (tolerance : Q) (x y : float) : Prop :=
  exists a b : Q,
    exact_value x = Some a /\ exact_value y = Some b /\
    (Qabs (a - b) <= tolerance)%Q.

(** The label of an adjacent pair of readings: the later reading compared
    with the earlier one. *)
Definition direction (prev cur : float) : string :=
  if B64.ltb prev cur then "up"%string
  else if B64.ltb cur prev then "down"%string
  else "same"%string.

(** The label of the same pair of readings met in the other order. *)
Definition opposite (label : string) : string :=
  if String.eqb label "up" then "down"%string
  else if String.eqb label "down" then "up"%string
  else label.

(** ** Vocabulary for rounding errors *)

(** [2 ^ e] as a rational, for any integer [e]. *)
Definition pow2 (e : Z) : Q := Qpower 2 e.

(** The value of a finite binary64 number; zeros (and, by convention, the
    values that are not numbers) are sent to 0. *)
Definition val (x : float) : Q :=
  match x with
  | S754_finite s m e =>
      if s then - (inject_Z (Zpos m) * pow2 e) else inject_Z (Zpos m) * pow2 e
  | _ => 0
  end.

(** [x] is a zero or a finite number: not nan, not an infinity. *)
Definition finite_or_zero (x : float) : Prop :=
  match x with
  | S754_zero _ | S754_finite _ _ _ => True
  | _ => False
  end.

Definition signed (s : bool) (q : Q) : Q := if s then - q else q.

(** What a rounding location says of the fractional part [f] that was
    dropped. *)
Definition loc_ok (l : location) (f : Q) : Prop :=
  match l with
  | loc_Exact => (f == 0)%Q
  | loc_Inexact Lt => (0 < f /\ f < 1 # 2)%Q
  | loc_Inexact Eq => (f == 1 # 2)%Q
  | loc_Inexact Gt => (1 # 2 < f /\ f < 1)%Q
  end.

(** The integer [m] with location [l] stands for the non-negative rational
    [x]: [m] is its floor and [l] describes [x - m]. *)
Definition inbetween (m : Z) (l : location) (x : Q) : Prop :=
  0 <= m /\ loc_ok l (x - inject_Z m).

Definition locates (mrs : shr_record) (x : Q) : Prop :=
  inbetween (shr_m mrs) (loc_of_shr_record mrs) x.

(** The exponent binary64 gives a number of magnitude below [2 ^ e]. *)
Definition fexp (e : Z) : Z := SpecFloat.fexp B64.prec B64.emax e.

(** The formulas of [convert] read over the rationals, with no rounding at
    all: the yardstick against which the computed double is measured. *)
Definition conversion_formula (original_scale target_scale : string) (x : Q)
  : Q :=
  let celsius :=
    if String.eqb original_scale "fahrenheit" then ((x - 32) * (5 # 9))%Q
    else if String.eqb original_scale "kelvin" then (x - (27315 # 100))%Q
    else x in
  if String.eqb target_scale "fahrenheit" then (celsius * (9 # 5) + 32)%Q
  else if String.eqb target_scale "kelvin" then (celsius + (27315 # 100))%Q
  else celsius.

(** * Properties *)

(** ** Order facts *)

Lemma ltb_rank (x y : float) :
  not_nan x -> not_nan y -> (flt x y <-> rank_lt (rank x) (rank y)).
Proof.
  unfold not_nan, flt, rank_lt, B64.ltb, SFltb.
  destruct x as [[]|[]| |[] m e], y as [[]|[]| |[] m' e']; simpl;
    intros Hx Hy; try discriminate; try (split; [discriminate | lia]);
    try (split; [lia | reflexivity]);
    try (split; [intros _; lia | reflexivity]).
  all: destruct (Z.compare_spec e e'); simpl;
    try (change (Pos.compare_cont Eq m m') with (Pos.compare m m');
         destruct (Pos.compare_spec m m'); simpl);
    split; intros; try discriminate; try reflexivity; try lia.
Qed.

Lemma leb_rank (x y : float) :
  not_nan x -> not_nan y -> (fle x y <-> rank_le (rank x) (rank y)).
Proof.
  unfold not_nan, fle, rank_le, rank_lt, B64.leb, SFleb.
  destruct x as [[]|[]| |[] m e], y as [[]|[]| |[] m' e']; simpl;
    intros Hx Hy; try discriminate;
    try (split; [discriminate | intros [?|?]; [lia | congruence]]);
    try (split; [intros _; left; lia | reflexivity]);
    try (split; [intros _; right; reflexivity | reflexivity]).
  all: destruct (Z.compare_spec e e'); simpl;
    try (change (Pos.compare_cont Eq m m') with (Pos.compare m m');
         destruct (Pos.compare_spec m m'); simpl);
    split; intros Hc; try discriminate; try reflexivity;
    try (left; lia); try (right; congruence);
    try (destruct Hc as [Hc|Hc]; [lia | injection Hc; intros; lia]).
Qed.

Lemma flt_not_nan (x y : float) : flt x y -> not_nan x /\ not_nan y.
Proof.
  unfold flt, not_nan, B64.ltb, SFltb.
  destruct x as [[]|[]| |[] m e], y as [[]|[]| |[] m' e']; simpl;
    intros H; try discriminate; split; reflexivity.
Qed.

Lemma fle_not_nan (x y : float) : fle x y -> not_nan x /\ not_nan y.
Proof.
  unfold fle, not_nan, B64.leb, SFleb.
  destruct x as [[]|[]| |[] m e], y as [[]|[]| |[] m' e']; simpl;
    intros H; try discriminate; split; reflexivity.
Qed.

Lemma ltb_irrefl (x : float) : B64.ltb x x = false.
Proof.
  destruct (B64.ltb x x) eqn:E; [| reflexivity].
  destruct (flt_not_nan x x E) as [Hx _].
  apply (ltb_rank x x Hx Hx) in E. unfold rank_lt in E. lia.
Qed.

Lemma fle_refl (x : float) : not_nan x -> fle x x.
Proof. intros Hx. apply leb_rank; [assumption..|]. right. reflexivity. Qed.

Lemma flt_fle (x y : float) : flt x y -> fle x y.
Proof.
  intros H. destruct (flt_not_nan _ _ H) as [Hx Hy].
  apply leb_rank; [assumption..|]. left. apply ltb_rank; assumption.
Qed.

(** On values that are not nan the order is total. *)
Lemma not_flt_fle (x y : float) :
  not_nan x -> not_nan y -> B64.ltb x y = false -> fle y x.
Proof.
  intros Hx Hy H. apply leb_rank; [assumption..|].
  assert (Hn : ~ rank_lt (rank x) (rank y)).
  { intros Hlt. apply (ltb_rank x y Hx Hy) in Hlt. unfold flt in Hlt.
    congruence. }
  unfold rank_le, rank_lt in *.
  destruct (rank x) as [a [b c]], (rank y) as [a' [b' c']]; simpl in *.
  destruct (Z.eq_dec a a'), (Z.eq_dec b b'), (Z.eq_dec c c');
    subst; try (right; reflexivity); left; lia.
Qed.

Lemma fle_trans (x y z : float) : fle x y -> fle y z -> fle x z.
Proof.
  intros H1 H2.
  destruct (fle_not_nan _ _ H1) as [Hx Hy].
  destruct (fle_not_nan _ _ H2) as [_ Hz].
  apply leb_rank in H1; [|assumption..]. apply leb_rank in H2; [|assumption..].
  apply leb_rank; [assumption..|].
  unfold rank_le, rank_lt in *.
  destruct H1 as [H1|H1], H2 as [H2|H2];
    try (rewrite H1; auto; fail); try (rewrite <- H2; auto; fail).
  left. lia.
Qed.

Lemma fle_flt_trans (x y z : float) : fle x y -> flt y z -> flt x z.
Proof.
  intros H1 H2.
  destruct (fle_not_nan _ _ H1) as [Hx Hy].
  destruct (flt_not_nan _ _ H2) as [_ Hz].
  apply leb_rank in H1; [|assumption..]. apply ltb_rank in H2; [|assumption..].
  apply ltb_rank; [assumption..|].
  unfold rank_le, rank_lt in *.
  destruct H1 as [H1|H1]; [lia | rewrite H1; assumption].
Qed.

Lemma flt_fle_trans (x y z : float) : flt x y -> fle y z -> flt x z.
Proof.
  intros H1 H2.
  destruct (flt_not_nan _ _ H1) as [Hx Hy].
  destruct (fle_not_nan _ _ H2) as [_ Hz].
  apply ltb_rank in H1; [|assumption..]. apply leb_rank in H2; [|assumption..].
  apply ltb_rank; [assumption..|].
  unfold rank_le, rank_lt in *.
  destruct H2 as [H2|H2]; [lia | rewrite <- H2; assumption].
Qed.

Lemma flt_not_fle (x y : float) : flt x y -> B64.leb y x = false.
Proof.
  intros H. destruct (B64.leb y x) eqn:E; [| reflexivity].
  pose proof (fle_flt_trans y x y E H) as Hc. unfold flt in Hc.
  rewrite ltb_irrefl in Hc. discriminate.
Qed.

(** ** Converter facts *)

Lemma py_in_In (s : string) (xs : list string) :
  py_in s xs = true <-> In s xs.
Proof.
  unfold py_in. rewrite existsb_exists. split.
  - intros [y [Hy He]]. apply String.eqb_eq in He. subst. assumption.
  - intros H. exists s. split; [assumption | apply String.eqb_refl].
Qed.

Lemma py_in_not_In (s : string) (xs : list string) :
  py_in s xs = false <-> ~ In s xs.
Proof.
  rewrite <- py_in_In. destruct (py_in s xs); split; intros H;
    try reflexivity; try discriminate; try (intros Hc; discriminate).
  exfalso. apply H. reflexivity.
Qed.

Lemma truediv_int_nonzero (x : float) (n : Z) :
  n <> 0 ->
  B64.truediv_int x n = Ok (SFdiv B64.prec B64.emax x (B64.of_int n)).
Proof.
  intros Hn. unfold B64.truediv_int.
  destruct (Z.eqb_spec n 0); [contradiction | reflexivity].
Qed.

(** Between two valid scales [convert] always returns. *)
Lemma convert_valid_returns (v : float) (o t : string) :
  valid_scale o -> valid_scale t -> exists w, convert v o t = Ok w.
Proof.
  unfold valid_scale. intros Ho Ht.
  apply py_in_In in Ho. apply py_in_In in Ht.
  unfold convert, Converter.convert. rewrite Ho, Ht. cbn [negb].
  destruct (String.eqb (lower o) (lower t)); [eexists; reflexivity |].
  cbn [truediv_int binary64].
  rewrite !truediv_int_nonzero by discriminate.
  destruct (String.eqb (lower o) "fahrenheit"),
    (String.eqb (lower o) "kelvin"),
    (String.eqb (lower t) "fahrenheit"),
    (String.eqb (lower t) "kelvin"); cbn [bind];
    rewrite ?truediv_int_nonzero by discriminate; cbn [bind];
    eexists; reflexivity.
Qed.

Lemma convert_invalid_original (v : float) (o t : string) :
  ~ valid_scale o ->
  convert v o t = Raise (ValueError (Converter.invalid_original (lower o))).
Proof.
  unfold valid_scale. intros Ho. apply py_in_not_In in Ho.
  unfold convert, Converter.convert. rewrite Ho. reflexivity.
Qed.

Lemma convert_invalid_target (v : float) (o t : string) :
  valid_scale o -> ~ valid_scale t ->
  convert v o t = Raise (ValueError (Converter.invalid_target (lower t))).
Proof.
  unfold valid_scale. intros Ho Ht.
  apply py_in_In in Ho. apply py_in_not_In in Ht.
  unfold convert, Converter.convert. rewrite Ho, Ht. reflexivity.
Qed.

Lemma valid_scale_dec (s : string) : {valid_scale s} + {~ valid_scale s}.
Proof.
  unfold valid_scale. destruct (py_in (lower s) Converter.valid_scales) eqn:E.
  - left. apply py_in_In. assumption.
  - right. apply py_in_not_In. assumption.
Qed.

Lemma convert_raise_invalid_scale (v : float) (o t : string) (e : exn) :
  convert v o t = Raise e -> invalid_scale_error e.
Proof.
  intros H. destruct (valid_scale_dec o) as [Ho|Ho].
  - destruct (valid_scale_dec t) as [Ht|Ht].
    + destruct (convert_valid_returns v o t Ho Ht) as [w Hw]. congruence.
    + rewrite (convert_invalid_target v o t Ho Ht) in H.
      injection H as <-. exists (lower t). right. reflexivity.
  - rewrite (convert_invalid_original v o t Ho) in H.
    injection H as <-. exists (lower o). left. reflexivity.
Qed.

(** ** Comprehensions and the builtins [min], [max] *)

Lemma comprehension_Forall2 {A B : Type} (f : A -> result B)
  (xs : list A) (ys : list B) :
  comprehension f xs = Ok ys <-> Forall2 (fun x y => f x = Ok y) xs ys.
Proof.
  revert ys. induction xs as [|x xs IH]; intros ys; simpl.
  - split.
    + intros H. injection H as <-. constructor.
    + intros H. inversion H. reflexivity.
  - split.
    + destruct (f x) as [y|e] eqn:Ef; simpl; [| discriminate].
      destruct (comprehension f xs) as [ys'|e] eqn:Ec; simpl; [| discriminate].
      intros H. injection H as <-. constructor; [assumption |].
      apply IH. reflexivity.
    + intros H. inversion H as [|x' y xs' ys' Hf Hrest]; subst.
      rewrite Hf. simpl. apply IH in Hrest. rewrite Hrest. reflexivity.
Qed.

Lemma comprehension_raise {A B : Type} (f : A -> result B)
  (xs : list A) (e : exn) :
  comprehension f xs = Raise e -> exists x, In x xs /\ f x = Raise e.
Proof.
  induction xs as [|x xs IH]; simpl; [discriminate |].
  destruct (f x) as [y|e'] eqn:Ef; simpl.
  - destruct (comprehension f xs) as [ys'|e''] eqn:Ec; simpl; [discriminate |].
    intros H. injection H as ->.
    destruct (IH eq_refl) as [x' [Hin Hx']]. exists x'. auto.
  - intros H. injection H as ->. exists x. auto.
Qed.

Lemma comprehension_returns {A B : Type} (f : A -> result B) (xs : list A) :
  (forall x, In x xs -> exists y, f x = Ok y) ->
  exists ys, comprehension f xs = Ok ys.
Proof.
  induction xs as [|x xs IH]; simpl; intros H.
  - eexists; reflexivity.
  - destruct (H x (or_introl eq_refl)) as [y Hy]. rewrite Hy. simpl.
    destruct IH as [ys Hys]; [intros x' Hx'; apply H; auto |].
    rewrite Hys. simpl. eexists; reflexivity.
Qed.

Lemma comprehension_length {A B : Type} (f : A -> result B)
  (xs : list A) (ys : list B) :
  comprehension f xs = Ok ys -> length ys = length xs.
Proof.
  intros H. apply comprehension_Forall2 in H.
  induction H; simpl; congruence.
Qed.

Lemma fold_min_In (rest : list float) (x : float) :
  In (fold_left (fun m v => if B64.ltb v m then v else m) rest x) (x :: rest).
Proof.
  revert x. induction rest as [|y rest IH]; intros x; simpl.
  - left. reflexivity.
  - destruct (B64.ltb y x).
    + right. apply IH.
    + destruct (IH x) as [H|H]; [left; assumption | right; right; assumption].
Qed.

Lemma fold_max_In (rest : list float) (x : float) :
  In (fold_left (fun m v => if B64.ltb m v then v else m) rest x) (x :: rest).
Proof.
  revert x. induction rest as [|y rest IH]; intros x; simpl.
  - left. reflexivity.
  - destruct (B64.ltb x y).
    + right. apply IH.
    + destruct (IH x) as [H|H]; [left; assumption | right; right; assumption].
Qed.

Lemma fold_min_le (rest : list float) (x : float) :
  not_nan x -> Forall not_nan rest ->
  Forall (fle (fold_left (fun m v => if B64.ltb v m then v else m) rest x))
    (x :: rest).
Proof.
  revert x. induction rest as [|y rest IH]; intros x Hx Hrest; simpl.
  - constructor; [apply fle_refl; assumption | constructor].
  - inversion Hrest as [|y' rest' Hy Hrest']; subst.
    destruct (B64.ltb y x) eqn:E.
    + specialize (IH y Hy Hrest'). inversion IH as [|a l Hhead Htail]; subst.
      constructor; [| constructor; assumption].
      apply (fle_trans _ y); [assumption | apply flt_fle; exact E].
    + specialize (IH x Hx Hrest'). inversion IH as [|a l Hhead Htail]; subst.
      constructor; [assumption |]. constructor; [| assumption].
      apply (fle_trans _ x); [assumption |].
      apply not_flt_fle; assumption.
Qed.

Lemma fold_max_ge (rest : list float) (x : float) :
  not_nan x -> Forall not_nan rest ->
  Forall
    (fun v => fle v (fold_left (fun m v => if B64.ltb m v then v else m) rest x))
    (x :: rest).
Proof.
  revert x. induction rest as [|y rest IH]; intros x Hx Hrest; simpl.
  - constructor; [apply fle_refl; assumption | constructor].
  - inversion Hrest as [|y' rest' Hy Hrest']; subst.
    destruct (B64.ltb x y) eqn:E.
    + specialize (IH y Hy Hrest'). inversion IH as [|a l Hhead Htail]; subst.
      constructor; [| constructor; assumption].
      apply (fle_trans _ y); [apply flt_fle; exact E | assumption].
    + specialize (IH x Hx Hrest'). inversion IH as [|a l Hhead Htail]; subst.
      constructor; [assumption |]. constructor; [| assumption].
      apply (fle_trans _ x); [| assumption].
      apply not_flt_fle; assumption.
Qed.

Lemma py_min_spec (xs : list float) :
  xs <> [] ->
  exists lo, B64.py_min xs = Ok lo /\ In lo xs /\
    (Forall not_nan xs -> Forall (fle lo) xs).
Proof.
  destruct xs as [|x rest]; [congruence |]. intros _.
  eexists. split; [reflexivity |]. split; [apply fold_min_In |].
  intros H. inversion H; subst. apply fold_min_le; assumption.
Qed.

Lemma py_max_spec (xs : list float) :
  xs <> [] ->
  exists hi, B64.py_max xs = Ok hi /\ In hi xs /\
    (Forall not_nan xs -> Forall (fun v => fle v hi) xs).
Proof.
  destruct xs as [|x rest]; [congruence |]. intros _.
  eexists. split; [reflexivity |]. split; [apply fold_max_In |].
  intros H. inversion H; subst. apply fold_max_ge; assumption.
Qed.

Lemma len_nonzero {A : Type} (xs : list A) : xs <> [] -> len xs <> 0.
Proof. destruct xs; [congruence |]. intros _. unfold len. simpl. lia. Qed.

(** ** Lower-casing *)

Lemma ascii_lower_idem (c : ascii) : ascii_lower (ascii_lower c) = ascii_lower c.
Proof. destruct c as [[] [] [] [] [] [] [] []]; reflexivity. Qed.

Lemma lower_idem (s : string) : lower (lower s) = lower s.
Proof.
  induction s as [|c s IH]; simpl; [reflexivity |].
  rewrite ascii_lower_idem, IH. reflexivity.
Qed.

Lemma valid_scale_lower (s : string) : valid_scale (lower s) <-> valid_scale s.
Proof. unfold valid_scale. rewrite lower_idem. reflexivity. Qed.

(** ** converter.py: identity conversion *)

(** C3: for every value [v] and every valid scale [S], in any letter case,
    [convert(v, S, S)] is [v] rounded to 2 decimal places, [round(v, 2)]
    applied to [v] itself with no conversion arithmetic; the same holds for
    two spellings [S], [S'] of one scale. *)
Theorem convert_same_scale_is_round2 (v : float) (S S' : string) :
  valid_scale S ->
  convert v S S = Ok (B64.round2 v) /\
  (lower S' = lower S -> convert v S S' = Ok (B64.round2 v)).
Proof.
  unfold valid_scale. intros HS. apply py_in_In in HS.
  assert (H : forall T, lower T = lower S ->
                        convert v S T = Ok (B64.round2 v)).
  { intros T HT. unfold convert, Converter.convert.
    rewrite HT, HS. cbn [negb]. rewrite String.eqb_refl. reflexivity. }
  split; [apply H; reflexivity | apply H].
Qed.

Lemma convert_same_scale_is_round2_witness :
  convert (B64.of_ratio 2675 1000) "Celsius" "Celsius"
    = Ok (B64.round2 (B64.of_ratio 2675 1000)) /\
  convert (B64.of_ratio 2675 1000) "Celsius" "CELSIUS"
    = Ok (B64.round2 (B64.of_ratio 2675 1000)).
Proof.
  destruct (convert_same_scale_is_round2 (B64.of_ratio 2675 1000)
              "Celsius" "CELSIUS") as [H1 H2].
  - unfold valid_scale. simpl. left. reflexivity.
  - split; [exact H1 | apply H2; reflexivity].
Defined.

(** The literal [273.15] is the double [0x1.1126666666666p+8]. *)
Example literal_273_15 :
  B64.of_ratio 27315 100 = S754_finite false 0x11126666666666 (-44) /\
  valid_binary B64.prec B64.emax (B64.of_ratio 27315 100) = true.
Proof. vm_compute. split; reflexivity. Qed.

(** [round(2.675, 2)] is [2.67]: the double nearest to 2.675 lies below the
    tie. *)
Example round2_2_675 :
  B64.round2 (B64.of_ratio 2675 1000) = B64.of_ratio 267 100.
Proof. vm_compute. reflexivity. Qed.

Example round2_tie_to_even :
  B64.round2 (B64.of_ratio 125 1000) = B64.of_ratio 12 100 /\
  B64.round2 (B64.of_ratio 375 1000) = B64.of_ratio 38 100.
Proof. vm_compute. split; reflexivity. Qed.

(** ** record.py *)

Lemma truthy_false {A : Type} (xs : list A) : truthy xs = false <-> xs = [].
Proof. destruct xs; simpl; split; congruence. Qed.

Lemma truthy_true {A : Type} (xs : list A) : truthy xs = true <-> xs <> [].
Proof. destruct xs; simpl; split; congruence. Qed.

Lemma convert_to_same_scale (target : string) (self : TemperatureRecord) :
  lower target = scale self -> convert_to target self = (Ok tt, self).
Proof.
  intros H. unfold convert_to. rewrite H, String.eqb_refl. reflexivity.
Qed.

Lemma convert_to_other_scale (target : string) (self : TemperatureRecord) :
  lower target <> scale self ->
  convert_to target self =
    match
      comprehension (fun temp => convert temp (scale self) (lower target))
        (readings self)
    with
    | Raise e => (Raise e, self)
    | Ok converted =>
        (Ok tt,
         {| date := date self; readings := converted;
            scale := lower target |})
    end.
Proof.
  intros H. unfold convert_to.
  destruct (String.eqb_spec (lower target) (scale self)); [contradiction |].
  reflexivity.
Qed.

Lemma convert_to_raise (target : string) (self : TemperatureRecord) (e : exn) :
  (convert_to target self).1 = Raise e ->
  (convert_to target self).2 = self /\ invalid_scale_error e.
Proof.
  unfold convert_to.
  destruct (String.eqb (lower target) (scale self)); simpl; [discriminate |].
  destruct (comprehension _ (readings self)) as [converted|e'] eqn:Ec; simpl;
    [discriminate |].
  intros H. injection H as ->. split; [reflexivity |].
  apply comprehension_raise in Ec. destruct Ec as [x [_ Hx]].
  eapply convert_raise_invalid_scale. exact Hx.
Qed.

(** C5: [convert_to(target)] with a target that lower-cases to the record's
    scale changes nothing.  Otherwise every reading is replaced by
    [convert(reading, scale, target)] and the scale becomes the lower-cased
    target, which is what happens whenever both scales are valid; if a
    conversion raises, the error escapes with the record untouched.  In
    every case the record afterwards holds either its old readings with its
    old scale or the converted readings with the new scale. *)
Theorem convert_to_updates_readings_and_scale_together
  (target : string) (self : TemperatureRecord) :
  (lower target = scale self -> convert_to target self = (Ok tt, self)) /\
  (lower target <> scale self ->
     (forall converted,
        Forall2 (converts_to self target) (readings self) converted ->
        convert_to target self =
          (Ok tt, {| date := date self; readings := converted;
                     scale := lower target |})) /\
     (valid_scale (scale self) -> valid_scale target ->
        exists converted,
          Forall2 (converts_to self target) (readings self) converted) /\
     (forall e, (convert_to target self).1 = Raise e ->
        (convert_to target self).2 = self)) /\
  ((readings (convert_to target self).2 = readings self /\
    scale (convert_to target self).2 = scale self) \/
   (scale (convert_to target self).2 = lower target /\
    Forall2 (converts_to self target) (readings self)
      (readings (convert_to target self).2))).
Proof.
  unfold converts_to. split; [apply convert_to_same_scale |]. split.
  - intros Hne. split; [| split].
    + intros converted Hc. rewrite convert_to_other_scale by assumption.
      apply comprehension_Forall2 in Hc. rewrite Hc. reflexivity.
    + intros Hs Ht.
      destruct (comprehension_returns
                  (fun temp => convert temp (scale self) (lower target))
                  (readings self)) as [converted Hc].
      * intros x _. apply convert_valid_returns; [assumption |].
        apply valid_scale_lower. assumption.
      * exists converted. apply comprehension_Forall2. assumption.
    + intros e He. apply (convert_to_raise target self e He).
  - destruct (String.eqb_spec (lower target) (scale self)) as [Heq|Hne].
    + left. rewrite convert_to_same_scale by assumption. auto.
    + rewrite convert_to_other_scale by assumption.
      destruct (comprehension _ (readings self)) as [converted|e] eqn:Ec.
      * right. simpl. split; [reflexivity |].
        apply comprehension_Forall2. assumption.
      * left. simpl. auto.
Qed.

Lemma convert_to_updates_readings_and_scale_together_witness :
  convert_to "Fahrenheit" (init "2025-04-01" [B64.of_int 0] "celsius") =
    (Ok tt, {| date := "2025-04-01"; readings := [B64.of_int 32];
               scale := "fahrenheit" |}).
Proof.
  apply (convert_to_updates_readings_and_scale_together "Fahrenheit"
           (init "2025-04-01" [B64.of_int 0] "celsius")).
  - simpl. discriminate.
  - simpl. constructor; [vm_compute; reflexivity | constructor].
Defined.

Lemma get_summary_empty (self : TemperatureRecord) :
  readings self = [] ->
  get_summary self =
    Ok {| summary_date := date self; summary_scale := scale self;
          summary_min := B64.zero; summary_max := B64.zero;
          summary_avg := B64.zero |}.
Proof. intros H. unfold get_summary. rewrite H. reflexivity. Qed.

Lemma get_summary_nonempty (self : TemperatureRecord) :
  readings self <> [] ->
  exists lo hi,
    B64.py_min (readings self) = Ok lo /\
    B64.py_max (readings self) = Ok hi /\
    get_summary self =
      Ok {| summary_date := date self; summary_scale := scale self;
            summary_min := B64.round2 lo; summary_max := B64.round2 hi;
            summary_avg :=
              B64.round2
                (SFdiv B64.prec B64.emax (B64.py_sum (readings self))
                   (B64.of_int (len (readings self)))) |}.
Proof.
  intros Hne.
  destruct (py_min_spec _ Hne) as (lo & Hlo & _).
  destruct (py_max_spec _ Hne) as (hi & Hhi & _).
  exists lo, hi. split; [assumption |]. split; [assumption |].
  unfold get_summary. apply truthy_true in Hne as Ht. rewrite Ht. cbn [negb].
  rewrite Hlo, Hhi. cbn [bind].
  rewrite truediv_int_nonzero by (apply len_nonzero; assumption).
  reflexivity.
Qed.

Lemma get_summary_returns (self : TemperatureRecord) :
  exists s, get_summary self = Ok s.
Proof.
  destruct (readings self) as [|x rest] eqn:E.
  - eexists. apply get_summary_empty. assumption.
  - destruct (get_summary_nonempty self) as (lo & hi & _ & _ & H);
      [congruence | eauto].
Qed.

(** C6: [get_summary()] returns the record's date and scale with the
    minimum, the maximum and the mean ([sum / len]) of its readings, each
    rounded to 2 decimal places; the minimum and maximum are readings of the
    record, and bound every reading when no reading is a nan.  With no
    readings the three statistics are the sentinel 0, and no error is
    raised in either case. *)
Theorem get_summary_min_max_avg_rounded (self : TemperatureRecord) :
  (readings self = [] ->
     get_summary self =
       Ok {| summary_date := date self; summary_scale := scale self;
             summary_min := B64.zero; summary_max := B64.zero;
             summary_avg := B64.zero |}) /\
  (readings self <> [] ->
     exists lo hi,
       extremes (readings self) lo hi /\
       get_summary self =
         Ok {| summary_date := date self; summary_scale := scale self;
               summary_min := B64.round2 lo; summary_max := B64.round2 hi;
               summary_avg :=
                 B64.round2
                   (SFdiv B64.prec B64.emax (B64.py_sum (readings self))
                      (B64.of_int (len (readings self)))) |}) /\
  (exists s, get_summary self = Ok s).
Proof.
  split; [apply get_summary_empty |]. split; [| apply get_summary_returns].
  intros Hne.
  destruct (get_summary_nonempty self Hne) as (lo & hi & Hlo & Hhi & Hs).
  destruct (py_min_spec _ Hne) as (lo' & Hlo' & Hin & Hle).
  destruct (py_max_spec _ Hne) as (hi' & Hhi' & Hin' & Hge).
  assert (lo' = lo) by congruence. assert (hi' = hi) by congruence. subst.
  exists lo, hi. split; [| assumption].
  split; [assumption |]. split; [assumption |].
  intros Hnan. specialize (Hle Hnan). specialize (Hge Hnan).
  rewrite Forall_forall in *. intros x Hx. split; [apply Hle | apply Hge]; auto.
Qed.

Lemma get_summary_min_max_avg_rounded_witness :
  exists lo hi,
    extremes [B64.of_int 10; B64.of_int 20; B64.of_int 30] lo hi /\
    get_summary
      (init "2025-04-01" [B64.of_int 10; B64.of_int 20; B64.of_int 30]
         "celsius") =
      Ok {| summary_date := "2025-04-01"; summary_scale := "celsius";
            summary_min := B64.round2 lo; summary_max := B64.round2 hi;
            summary_avg :=
              B64.round2
                (SFdiv B64.prec B64.emax
                   (B64.py_sum [B64.of_int 10; B64.of_int 20; B64.of_int 30])
                   (B64.of_int 3)) |}.
Proof.
  apply (get_summary_min_max_avg_rounded
           (init "2025-04-01" [B64.of_int 10; B64.of_int 20; B64.of_int 30]
              "celsius")).
  simpl. discriminate.
Defined.

(** The scenario of the specification: readings 10, 20, 30 summarise to
    min 10, max 30, avg 20. *)
Example get_summary_scenario :
  get_summary
    (init "2025-04-01" [B64.of_int 10; B64.of_int 20; B64.of_int 30] "celsius")
  = Ok {| summary_date := "2025-04-01"; summary_scale := "celsius";
          summary_min := B64.of_int 10; summary_max := B64.of_int 30;
          summary_avg := B64.of_int 20 |}.
Proof. vm_compute. reflexivity. Qed.

(** C10: the constructor stores whatever scale string it is given, only
    lower-cased, and cannot fail; [convert_to(target)] returns without an
    error and without any change whenever the lower-cased target equals the
    stored scale, also for a scale that [convert] itself would reject for
    every reading. *)
Theorem convert_to_same_scale_skips_validation
  (d : string) (rs : list float) (s target : string) :
  init d rs s = {| date := d; readings := rs; scale := lower s |} /\
  (lower target = lower s ->
     convert_to target (init d rs s) = (Ok tt, init d rs s)) /\
  (~ valid_scale s ->
     forall temp,
       convert temp (scale (init d rs s)) (lower target) =
         Raise (ValueError (Converter.invalid_original (lower s)))).
Proof.
  split; [reflexivity |]. split.
  - intros H. apply convert_to_same_scale. simpl. assumption.
  - intros Hs temp. simpl.
    rewrite convert_invalid_original by (rewrite valid_scale_lower; assumption).
    rewrite lower_idem. reflexivity.
Qed.

Lemma convert_to_same_scale_skips_validation_witness :
  convert_to "RANKINE" (init "d" [B64.of_int 500] "Rankine")
    = (Ok tt, init "d" [B64.of_int 500] "Rankine") /\
  forall temp,
    convert temp (scale (init "d" [B64.of_int 500] "Rankine")) (lower "RANKINE")
      = Raise (ValueError (Converter.invalid_original (lower "Rankine"))).
Proof.
  destruct (convert_to_same_scale_skips_validation
              "d" [B64.of_int 500] "Rankine" "RANKINE") as (_ & H1 & H2).
  split.
  - apply H1. reflexivity.
  - apply H2. unfold valid_scale. simpl. intros H.
    decompose [or] H; discriminate || assumption.
Defined.

(** ** analytics.py: extreme days *)

Lemma eqb_rank (x y : float) :
  B64.eqb x y = true -> not_nan x /\ not_nan y /\ rank x = rank y.
Proof.
  unfold not_nan, B64.eqb, SFeqb.
  destruct x as [[]|[]| |[] m e], y as [[]|[]| |[] m' e']; simpl;
    intros H; try discriminate; try (repeat split; reflexivity).
  all: destruct (Z.compare_spec e e'); simpl in H; try discriminate;
    change (Pos.compare_cont Eq m m') with (Pos.compare m m') in H;
    destruct (Pos.compare_spec m m'); simpl in H; try discriminate;
    subst; repeat split; reflexivity.
Qed.

(** A reading equal to the threshold is not above it. *)
Lemma eqb_not_above (temp threshold : float) :
  B64.eqb temp threshold = true -> B64.ltb threshold temp = false.
Proof.
  intros H. apply eqb_rank in H. destruct H as (Ht & Hth & Hr).
  destruct (B64.ltb threshold temp) eqn:E; [| reflexivity].
  apply (ltb_rank threshold temp Hth Ht) in E.
  rewrite Hr in E. unfold rank_lt in E. lia.
Qed.

Lemma any_above_iff (threshold : float) (record : TemperatureRecord) :
  existsb (fun temp => B64.ltb threshold temp) (readings record) = true
  <-> has_reading_above threshold record.
Proof. unfold has_reading_above, flt. apply existsb_exists. Qed.

Lemma selected_dates_unique (P : TemperatureRecord -> Prop)
  (records : list TemperatureRecord) (ds ds' : list string) :
  selected_dates P records ds -> selected_dates P records ds' -> ds = ds'.
Proof.
  intros H. revert ds'. induction H; intros ds' H'; inversion H'; subst;
    try reflexivity; try contradiction.
  - f_equal. auto.
  - auto.
Qed.

Lemma detect_extreme_days_selected (records : list TemperatureRecord)
  (threshold : float) :
  selected_dates (has_reading_above threshold) records
    (detect_extreme_days records threshold).
Proof.
  unfold detect_extreme_days.
  induction records as [|r rs IH]; simpl; [constructor |].
  destruct (existsb (fun temp => B64.ltb threshold temp) (readings r)) eqn:E;
    simpl.
  - constructor; [apply any_above_iff; assumption | assumption].
  - constructor; [| assumption].
    intros H. apply any_above_iff in H. congruence.
Qed.

(** C7: [detect_extreme_days] returns, in input order, exactly the dates of
    the records that contain a reading strictly greater than the threshold;
    a record whose readings all equal the threshold is left out; and the
    result depends on dates and readings only, never on the scales. *)
Theorem detect_extreme_days_strictly_above
  (records : list TemperatureRecord) (threshold : float) :
  selected_dates (has_reading_above threshold) records
    (detect_extreme_days records threshold) /\
  (forall dates,
     selected_dates (has_reading_above threshold) records dates ->
     dates = detect_extreme_days records threshold) /\
  (forall record,
     Forall (fun temp => B64.eqb temp threshold = true) (readings record) ->
     ~ has_reading_above threshold record) /\
  (forall records',
     Forall2 (fun r r' => date r = date r' /\ readings r = readings r')
       records records' ->
     detect_extreme_days records' threshold =
       detect_extreme_days records threshold).
Proof.
  split; [apply detect_extreme_days_selected |]. split; [| split].
  - intros dates H. eapply selected_dates_unique; [exact H |].
    apply detect_extreme_days_selected.
  - intros record Hall [temp [Hin Hlt]].
    rewrite List.Forall_forall in Hall. apply Hall in Hin.
    apply eqb_not_above in Hin. unfold flt in Hlt. congruence.
  - intros records' H. unfold detect_extreme_days.
    induction H as [|r r' rs rs' [Hd Hr] _ IH]; simpl; [reflexivity |].
    rewrite <- Hr.
    destruct (existsb (fun temp => B64.ltb threshold temp) (readings r)); simpl;
      [rewrite Hd |]; rewrite IH; reflexivity.
Qed.

Lemma detect_extreme_days_strictly_above_witness :
  ~ has_reading_above (B64.of_int 25) (init "d1" [B64.of_int 25] "celsius").
Proof.
  apply (detect_extreme_days_strictly_above [] (B64.of_int 25)).
  simpl. constructor; [vm_compute; reflexivity | constructor].
Defined.

(** The boundary scenario: a reading of 25.0 is not extreme for the
    threshold 25.0 and is extreme for 24.9. *)
Example detect_extreme_days_boundary :
  detect_extreme_days [init "d1" [B64.of_int 25] "celsius"] (B64.of_int 25)
    = [] /\
  detect_extreme_days [init "d1" [B64.of_int 25] "celsius"]
    (B64.of_ratio 249 10) = ["d1"%string].
Proof. vm_compute. split; reflexivity. Qed.

(** ** analytics.py: spikes *)

Lemma py_index_in_range {A : Type} (xs : list A) (i : nat) :
  (i < length xs)%nat -> exists x, nth_error xs i = Some x /\ py_index xs i = Ok x.
Proof.
  intros H. unfold py_index.
  destruct (nth_error xs i) as [x|] eqn:E; [eauto |].
  apply nth_error_None in E. lia.
Qed.

Lemma spike_loop_spec (temps : list float) (threshold : float)
  (indices : list nat) :
  Forall (fun i => (1 <= i < length temps)%nat) indices ->
  exists b, spike_loop temps threshold indices = Ok b /\
    (b = true <->
     exists i prev cur,
       In (S i) indices /\ nth_error temps i = Some prev /\
       nth_error temps (S i) = Some cur /\
       fle threshold (B64.abs (B64.sub cur prev))).
Proof.
  induction indices as [|i rest IH]; intros Hall; cbn [spike_loop].
  - exists false. split; [reflexivity |]. split; [discriminate |].
    intros (i & prev & cur & [] & _).
  - inversion Hall as [|i' rest' Hi Hrest]; subst.
    destruct (py_index_in_range temps i) as (cur & Ecur & ->); [lia |].
    destruct (py_index_in_range temps (i - 1)) as (prev & Eprev & ->); [lia |].
    cbn [bind].
    destruct (B64.leb threshold (B64.abs (B64.sub cur prev))) eqn:E.
    + exists true. split; [reflexivity |]. split; [| reflexivity].
      intros _. exists (i - 1)%nat, prev, cur.
      replace (S (i - 1)) with i by lia.
      split; [left; reflexivity | auto].
    + destruct (IH Hrest) as (b & Hb & Hiff). exists b.
      split; [assumption |]. rewrite Hiff. split.
      * intros (j & p & c & Hin & H). exists j, p, c.
        split; [right; assumption | assumption].
      * intros (j & p & c & [Hj|Hin] & Hp & Hc & Hle).
        -- subst i. replace (S j - 1)%nat with j in Eprev by lia.
           assert (p = prev) by congruence. assert (c = cur) by congruence.
           subst. unfold fle in Hle. congruence.
        -- exists j, p, c. auto.
Qed.

Lemma range_from_1_In (n i : nat) :
  In i (range_from_1 n) <-> (1 <= i < n)%nat.
Proof. unfold range_from_1. rewrite in_seq. lia. Qed.

Lemma detect_spike_some (temps : list float) (threshold : float) :
  exists b, detect_spike temps (Some threshold) = Ok b /\
    (b = true <-> adjacent_jump temps threshold).
Proof.
  destruct (spike_loop_spec temps threshold (range_from_1 (length temps)))
    as (b & Hb & Hiff).
  { apply List.Forall_forall. intros i Hi. apply range_from_1_In in Hi. lia. }
  exists b. split; [exact Hb |]. rewrite Hiff. unfold adjacent_jump. split.
  - intros (i & p & c & _ & H). exists i, p, c. exact H.
  - intros (i & p & c & Hp & Hc & Hle). exists i, p, c.
    split; [| auto]. apply range_from_1_In.
    assert (S i < length temps)%nat by (apply nth_error_Some; congruence).
    lia.
Qed.

Lemma detect_spike_returns (temps : list float) (threshold : option float) :
  exists b, detect_spike temps threshold = Ok b.
Proof.
  destruct threshold as [th|].
  - destruct (detect_spike_some temps th) as (b & Hb & _). eauto.
  - destruct (detect_spike_some temps (B64.of_int 5)) as (b & Hb & _). eauto.
Qed.

(** C9: [detect_spike] returns true exactly when some adjacent pair of
    readings differs in absolute value by at least the threshold, a
    difference equal to the threshold included; it returns false for fewer
    than 2 readings; and a call that omits the threshold behaves as the
    call with threshold 5. *)
Theorem detect_spike_inclusive_threshold
  (temps : list float) (threshold : float) :
  (exists b, detect_spike temps (Some threshold) = Ok b /\
     (b = true <-> adjacent_jump temps threshold) /\
     ((length temps < 2)%nat -> b = false)) /\
  detect_spike temps None = detect_spike temps (Some (B64.of_int 5)).
Proof.
  split; [| reflexivity].
  destruct (detect_spike_some temps threshold) as (b & Hb & Hiff).
  exists b. split; [assumption |]. split; [assumption |].
  intros Hlen. destruct b; [| reflexivity].
  destruct (proj1 Hiff eq_refl) as (i & p & c & _ & Hc & _).
  assert (S i < length temps)%nat by (apply nth_error_Some; congruence).
  lia.
Qed.

Lemma detect_spike_inclusive_threshold_witness :
  detect_spike [B64.of_int 25] (Some (B64.of_int 5)) = Ok false.
Proof.
  destruct (detect_spike_inclusive_threshold [B64.of_int 25] (B64.of_int 5))
    as ((b & Hb & _ & Hshort) & _).
  transitivity (Ok b); [exact Hb |].
  f_equal. apply Hshort. simpl. lia.
Defined.

(** The scenarios of the specification: with the default threshold,
    [10, 20] and the exact difference [10, 15] spike, [10, 14] does not. *)
Example detect_spike_scenarios :
  detect_spike [B64.of_int 10; B64.of_int 20] None = Ok true /\
  detect_spike [B64.of_int 10; B64.of_int 15] None = Ok true /\
  detect_spike [B64.of_int 10; B64.of_int 14] None = Ok false /\
  detect_spike [B64.of_int 10; B64.of_ratio 149 10] (Some (B64.of_int 5))
    = Ok false /\
  detect_spike [B64.of_int 25] None = Ok false.
Proof. vm_compute. repeat split; reflexivity. Qed.

(** ** analytics.py: daily ranges *)

Lemma day_range_empty (record : TemperatureRecord) :
  readings record = [] -> day_range record = Ok (B64.zero, B64.zero).
Proof. intros H. unfold day_range. rewrite H. reflexivity. Qed.

Lemma day_range_nonempty (record : TemperatureRecord) :
  readings record <> [] ->
  exists lo hi,
    extremes (readings record) lo hi /\
    day_range record = Ok (B64.round2 lo, B64.round2 hi).
Proof.
  intros Hne.
  destruct (py_min_spec _ Hne) as (lo & Hlo & Hin & Hle).
  destruct (py_max_spec _ Hne) as (hi & Hhi & Hin' & Hge).
  exists lo, hi. split.
  - split; [assumption |]. split; [assumption |].
    intros Hnan. specialize (Hle Hnan). specialize (Hge Hnan).
    rewrite List.Forall_forall in *. intros x Hx. split; auto.
  - unfold day_range. apply truthy_true in Hne as ->.
    rewrite Hlo, Hhi. reflexivity.
Qed.

Lemma day_range_returns (record : TemperatureRecord) :
  exists entry, day_range record = Ok entry.
Proof.
  destruct (readings record) as [|x rest] eqn:E.
  - eexists. apply day_range_empty. assumption.
  - destruct (day_range_nonempty record) as (lo & hi & _ & H);
      [congruence | eauto].
Qed.

(** The loop keeps the entries of dates it does not meet and, for a date it
    meets, ends with the entry written for the last record of that date. *)
Lemma range_loop_spec (records : list TemperatureRecord)
  (acc : gmap string (float * float)) :
  exists m, range_loop records acc = Ok m /\
    (forall d, (forall r, In r records -> date r <> d) -> m !! d = acc !! d) /\
    (forall before record after,
       records = before ++ record :: after ->
       Forall (fun r => date r <> date record) after ->
       exists entry,
         day_range record = Ok entry /\ m !! date record = Some entry).
Proof.
  revert acc. induction records as [|r rest IH]; intros acc; cbn [range_loop].
  - exists acc. split; [reflexivity |]. split; [reflexivity |].
    intros before record after H. destruct before; discriminate.
  - destruct (day_range_returns r) as [entry He]. rewrite He. cbn [bind].
    destruct (IH (<[date r := entry]> acc)) as (m & Hm & Hkeep & Hlast).
    exists m. split; [assumption |]. split.
    + intros d Hd. rewrite Hkeep.
      * apply lookup_insert_ne. apply Hd. left. reflexivity.
      * intros r' Hr'. apply Hd. right. assumption.
    + intros before record after Hsplit Hafter.
      destruct before as [|b before']; simpl in Hsplit;
        injection Hsplit as -> ->.
      * exists entry. split; [assumption |]. rewrite Hkeep.
        -- apply lookup_insert_eq.
        -- rewrite List.Forall_forall in Hafter. exact Hafter.
      * eapply Hlast; [reflexivity | assumption].
Qed.

Lemma temperature_range_returns (records : list TemperatureRecord) :
  exists m, temperature_range_for_each_day records = Ok m.
Proof.
  destruct (range_loop_spec records ∅) as (m & Hm & _). eauto.
Qed.

Lemma last_of_date (records : list TemperatureRecord) (d : string) :
  (exists r, In r records /\ date r = d) ->
  exists before record after,
    records = before ++ record :: after /\ date record = d /\
    Forall (fun r' => date r' <> d) after.
Proof.
  induction records as [|x rest IH]; intros (r & Hin & Hd); [destruct Hin |].
  destruct (List.Exists_dec (fun r' => date r' = d) rest) as [Hex|Hno].
  - intros r'. apply string_dec.
  - apply List.Exists_exists in Hex.
    destruct (IH Hex) as (before & record & after & -> & Hdate & Hafter).
    exists (x :: before), record, after. auto.
  - assert (Hx : x = r).
    { destruct Hin as [Hx|Hin]; [assumption |].
      exfalso. apply Hno. apply List.Exists_exists. eauto. }
    subst x. exists [], r, rest.
    split; [reflexivity |]. split; [assumption |].
    apply List.Forall_forall. intros r' Hr' Hd'. apply Hno.
    apply List.Exists_exists. eauto.
Qed.

(** C8: [temperature_range_for_each_day] returns a dictionary whose keys
    are exactly the dates of the records; a date is mapped to the range of
    the last record in input order that carries it, which is [(0, 0)] for
    empty readings and otherwise the minimum and maximum reading, each
    rounded to 2 decimals. *)
Theorem temperature_range_later_record_wins
  (records : list TemperatureRecord) :
  exists result_ : gmap string (float * float),
    temperature_range_for_each_day records = Ok result_ /\
    (forall d,
       is_Some (result_ !! d) <-> exists r, In r records /\ date r = d) /\
    (forall before record after,
       records = before ++ record :: after ->
       Forall (fun r => date r <> date record) after ->
       (readings record = [] ->
          result_ !! date record = Some (B64.zero, B64.zero)) /\
       (readings record <> [] ->
          exists lo hi,
            extremes (readings record) lo hi /\
            result_ !! date record = Some (B64.round2 lo, B64.round2 hi))).
Proof.
  unfold temperature_range_for_each_day.
  destruct (range_loop_spec records ∅) as (m & Hm & Hkeep & Hlast).
  exists m. split; [assumption |]. split.
  - intros d. split.
    + intros Hsome.
      destruct (List.Exists_dec (fun r => date r = d) records) as [Hex|Hno].
      * intros r. apply string_dec.
      * apply List.Exists_exists in Hex. exact Hex.
      * exfalso. rewrite Hkeep in Hsome.
        -- rewrite lookup_empty in Hsome. destruct Hsome as [? ?]. discriminate.
        -- intros r Hr Hd. apply Hno. apply List.Exists_exists. eauto.
    + intros Hex.
      destruct (last_of_date records d Hex)
        as (before & record & after & Hsplit & Hdate & Hafter).
      subst d. destruct (Hlast before record after Hsplit Hafter)
        as (entry & _ & Hlook).
      rewrite Hlook. eexists. reflexivity.
  - intros before record after Hsplit Hafter.
    destruct (Hlast before record after Hsplit Hafter) as (entry & He & Hlook).
    split.
    + intros Hempty. rewrite (day_range_empty _ Hempty) in He.
      injection He as <-. assumption.
    + intros Hne. destruct (day_range_nonempty _ Hne) as (lo & hi & Hext & Hr).
      rewrite Hr in He. injection He as <-. exists lo, hi. auto.
Qed.

Lemma temperature_range_later_record_wins_witness :
  temperature_range_for_each_day
    [init "d1" [B64.of_int 5; B64.of_int 10] "celsius";
     init "d1" [] "celsius"] = Ok {[ "d1"%string := (B64.zero, B64.zero) ]}.
Proof.
  destruct (temperature_range_later_record_wins
              [init "d1" [B64.of_int 5; B64.of_int 10] "celsius";
               init "d1" [] "celsius"]) as (m & Hm & Hkeys & Hlast).
  rewrite Hm. f_equal. apply map_eq. intros d.
  destruct (Hlast [init "d1" [B64.of_int 5; B64.of_int 10] "celsius"]
              (init "d1" [] "celsius") []) as [H0 _].
  - reflexivity.
  - constructor.
  - specialize (H0 eq_refl). cbn [date init] in H0.
    destruct (decide (d = "d1"%string)) as [->|Hne].
    + rewrite lookup_singleton_eq. exact H0.
    + rewrite lookup_singleton_ne by congruence.
      destruct (m !! d) eqn:E; [| reflexivity].
      exfalso. destruct (proj1 (Hkeys d) (ex_intro _ _ E)) as (r & Hr & Hd).
      simpl in Hr. decompose [or] Hr; subst; simpl in Hne; congruence.
Defined.

(** ** analytics.py: the hottest day *)

Lemma avg_in_celsius_empty (record : TemperatureRecord) :
  readings record = [] -> avg_in_celsius record = Ok B64.neg_inf.
Proof. intros H. unfold avg_in_celsius. rewrite H. reflexivity. Qed.

Lemma avg_in_celsius_raise (record : TemperatureRecord) (e : exn) :
  avg_in_celsius record = Raise e -> invalid_scale_error e.
Proof.
  unfold avg_in_celsius.
  destruct (truthy (readings record)) eqn:Et; cbn [negb]; [| discriminate].
  destruct (comprehension _ (readings record)) as [temps_c|e'] eqn:Ec;
    cbn [bind].
  - rewrite truediv_int_nonzero; [discriminate |].
    apply len_nonzero. apply comprehension_length in Ec.
    apply truthy_true in Et. destruct temps_c; [| discriminate].
    destruct (readings record); [congruence | discriminate].
  - intros H. injection H as ->. apply comprehension_raise in Ec.
    destruct Ec as (t & _ & Ht). eapply convert_raise_invalid_scale. exact Ht.
Qed.

Lemma avg_in_celsius_returns (record : TemperatureRecord) :
  valid_scale (scale record) -> exists k, avg_in_celsius record = Ok k.
Proof.
  intros Hs. unfold avg_in_celsius.
  destruct (truthy (readings record)) eqn:Et; cbn [negb]; [| eauto].
  destruct (comprehension_returns
              (fun t => convert t (scale record) "celsius") (readings record))
    as [temps_c Hc].
  { intros x _. apply convert_valid_returns; [assumption |].
    unfold valid_scale. simpl. auto. }
  rewrite Hc. cbn [bind]. rewrite truediv_int_nonzero; [eauto |].
  apply len_nonzero. apply comprehension_length in Hc.
  apply truthy_true in Et. destruct temps_c; [| discriminate].
  destruct (readings record); [congruence | discriminate].
Qed.

Lemma max_key_loop_raise {A : Type} (key : A -> result float)
  (maxitem : A) (maxval : float) (rest : list A) (e : exn) :
  max_key_loop key maxitem maxval rest = Raise e ->
  exists item, In item rest /\ key item = Raise e.
Proof.
  revert maxitem maxval. induction rest as [|item rest IH];
    intros maxitem maxval; cbn [max_key_loop]; [discriminate |].
  destruct (key item) as [val|e'] eqn:Ek; cbn [bind].
  - destruct (B64.ltb maxval val); intros H; apply IH in H;
      destruct H as (it & Hin & Hit); exists it; split; auto; right; auto.
  - intros H. injection H as ->. exists item. split; [left |]; auto.
Qed.

(** The loop of [max] returns an item that no later key exceeds and that,
    unless it is the initial item, has a key above the initial one; when no
    key is a nan it is the first item whose key is maximal: the keys before
    it are strictly smaller and the keys after it are not greater. *)
Lemma max_key_loop_spec {A : Type} (key : A -> result float)
  (rest : list A) (keys : list float) (maxitem : A) (maxval : float) :
  Forall2 (fun r k => key r = Ok k) rest keys ->
  exists before r after kb k ka,
    maxitem :: rest = before ++ r :: after /\
    maxval :: keys = kb ++ k :: ka /\
    length before = length kb /\
    max_key_loop key maxitem maxval rest = Ok r /\
    Forall (fun k' => B64.ltb k k' = false) ka /\
    (kb = [] \/ flt maxval k) /\
    (not_nan maxval -> Forall not_nan keys ->
     Forall (fun k' => flt k' k) kb /\ Forall (fun k' => fle k' k) ka).
Proof.
  intros H. revert maxitem maxval.
  induction H as [|item kv rest keys Hk _ IH]; intros maxitem maxval.
  - exists [], maxitem, [], [], maxval, []. cbn. repeat split; auto.
  - cbn [max_key_loop]. rewrite Hk. cbn [bind].
    destruct (B64.ltb maxval kv) eqn:E.
    + destruct (IH item kv)
        as (before & r & after & kb & k & ka
            & Hs & Hks & Hlen & Hr & Hlater & Hmoved & Hord).
      assert (Hmk : flt maxval k).
      { destruct Hmoved as [->|Hlt].
        - injection Hks as ->. exact E.
        - eapply flt_fle_trans; [exact E | apply flt_fle; exact Hlt]. }
      exists (maxitem :: before), r, after, (maxval :: kb), k, ka.
      split; [cbn; rewrite Hs; reflexivity |].
      split; [cbn; rewrite Hks; reflexivity |].
      split; [cbn; f_equal; assumption |]. split; [assumption |].
      split; [assumption |]. split; [right; assumption |].
      intros Hmv Hnan. inversion Hnan as [|kv' keys' Hkv Hkeys]; subst.
      destruct (Hord Hkv Hkeys) as [Hlt Hle].
      split; [| assumption]. constructor; assumption.
    + destruct (IH maxitem maxval)
        as (before & r & after & kb & k & ka
            & Hs & Hks & Hlen & Hr & Hlater & Hmoved & Hord).
      destruct before as [|b before'], kb as [|k0 kb']; try discriminate.
      * injection Hs as -> ->. injection Hks as -> ->.
        exists [], r, (item :: after), [], k, (kv :: ka).
        cbn. split; [reflexivity |]. split; [reflexivity |].
        split; [reflexivity |]. split; [assumption |].
        split; [constructor; assumption |]. split; [left; reflexivity |].
        intros Hmv Hnan. inversion Hnan as [|kv' keys' Hkv Hkeys]; subst.
        destruct (Hord Hmv Hkeys) as [_ Hle].
        split; [constructor |]. constructor; [| assumption].
        apply not_flt_fle; assumption.
      * injection Hs as -> ->. injection Hks as -> ->.
        destruct Hmoved as [Hnil|Hmk]; [discriminate |].
        exists (b :: item :: before'), r, after, (k0 :: kv :: kb'), k, ka.
        cbn. cbn in Hlen. split; [reflexivity |]. split; [reflexivity |].
        split; [f_equal; assumption |]. split; [assumption |].
        split; [assumption |]. split; [right; assumption |].
        intros Hmv Hnan. inversion Hnan as [|kv' keys' Hkv Hkeys]; subst.
        destruct (Hord Hmv Hkeys) as [Hlt Hle].
        split; [| assumption]. inversion Hlt; subst.
        constructor; [assumption |]. constructor; [| assumption].
        eapply fle_flt_trans; [| eassumption].
        apply not_flt_fle; assumption.
Qed.

Lemma not_above_neg_inf (k : float) :
  B64.ltb B64.neg_inf k = false -> k = B64.neg_inf \/ k = B64.nan.
Proof.
  unfold B64.ltb, SFltb.
  destruct k as [[]|[]| |[] m e]; simpl; intros H;
    try discriminate; auto.
Qed.

Lemma fle_neg_inf (k : float) : fle k B64.neg_inf -> k = B64.neg_inf.
Proof.
  unfold fle, B64.leb, SFleb.
  destruct k as [[]|[]| |[] m e]; simpl; intros H;
    try discriminate; reflexivity.
Qed.

Lemma not_flt_neg_inf (k : float) : ~ flt k B64.neg_inf.
Proof.
  unfold flt, B64.ltb, SFltb.
  destruct k as [[]|[]| |[] m e]; simpl; intros H; discriminate.
Qed.

Lemma scores_exist (records : list TemperatureRecord) :
  Forall (fun r => valid_scale (scale r)) records ->
  exists keys, Forall2 (fun r k => avg_in_celsius r = Ok k) records keys.
Proof.
  induction 1 as [|r rest Hr _ [keys IH]].
  - exists []. constructor.
  - destruct (avg_in_celsius_returns r Hr) as [k Hk].
    exists (k :: keys). constructor; assumption.
Qed.

(** C1, as stated, fails: a record with empty readings is returned as the
    hottest day of a non-empty list when it is the only record. *)
Lemma hottest_day_returns_record_without_readings :
  ~ (forall (records : list TemperatureRecord) (r : TemperatureRecord),
       records <> [] -> In r records -> readings r = [] ->
       hottest_day records <> Ok (date r)).
Proof.
  intros H.
  apply (H [init "d1" [] "celsius"] (init "d1" [] "celsius")).
  - discriminate.
  - left. reflexivity.
  - reflexivity.
  - vm_compute. reflexivity.
Qed.

(** C1, amended: a record with empty readings scores negative infinity;
    for an empty list the result is the empty string; for a non-empty list
    whose records all have a score, [hottest_day] returns the date of a
    record that no later score exceeds, and a record with empty readings is
    returned only when it is the first record and every score is negative
    infinity or a nan.  When no score is a nan the record returned is the
    first one, in input order, whose score is maximal: earlier scores are
    strictly smaller, later ones not greater, and a record with empty
    readings is then returned only when every score is negative infinity.
    Every record with a valid scale has a score. *)
Theorem hottest_day_first_maximum :
  (forall record,
     readings record = [] -> avg_in_celsius record = Ok B64.neg_inf) /\
  hottest_day [] = Ok ""%string /\
  (forall records keys,
     records <> [] ->
     Forall2 (fun r k => avg_in_celsius r = Ok k) records keys ->
     exists before r after kb k ka,
       records = before ++ r :: after /\
       keys = kb ++ k :: ka /\
       length before = length kb /\
       hottest_day records = Ok (date r) /\
       Forall (fun k' => B64.ltb k k' = false) ka /\
       (readings r = [] ->
          before = [] /\
          Forall (fun k' => k' = B64.neg_inf \/ k' = B64.nan) keys) /\
       (Forall not_nan keys ->
          Forall (fun k' => flt k' k) kb /\
          Forall (fun k' => fle k' k) ka /\
          (readings r = [] -> Forall (fun k' => k' = B64.neg_inf) keys))) /\
  (forall records,
     Forall (fun r => valid_scale (scale r)) records ->
     exists keys, Forall2 (fun r k => avg_in_celsius r = Ok k) records keys).
Proof.
  split; [apply avg_in_celsius_empty |]. split; [reflexivity |].
  split; [| apply scores_exist].
  intros records keys Hne Hkeys.
  destruct Hkeys as [|r0 k0 rest keys Hk0 Hrest]; [congruence |].
  destruct (max_key_loop_spec avg_in_celsius rest keys r0 k0 Hrest)
    as (before & r & after & kb & k & ka
        & Hs & Hks & Hlen & Hr & Hlater & Hmoved & Hord).
  exists before, r, after, kb, k, ka.
  split; [assumption |]. split; [assumption |]. split; [assumption |].
  split.
  { unfold hottest_day, py_max_key. cbn [truthy negb].
    rewrite Hk0. cbn [bind]. rewrite Hr. reflexivity. }
  split; [assumption |].
  assert (Hscore : readings r = [] -> k = B64.neg_inf /\ kb = []).
  { intros Hempty.
    assert (Hk : k = B64.neg_inf).
    { assert (Hall : Forall2 (fun r k => avg_in_celsius r = Ok k)
                       (before ++ r :: after) (kb ++ k :: ka)).
      { rewrite <- Hs, <- Hks. constructor; assumption. }
      apply Forall2_app_inv_l in Hall.
      destruct Hall as (kb' & ks' & Hb & Ha & Heq).
      apply List.Forall2_length in Hb as Hlb.
      assert (Hkb : kb' = kb /\ ks' = k :: ka).
      { apply app_inj_1; [lia | auto]. }
      destruct Hkb as [-> ->]. inversion Ha; subst.
      rewrite (avg_in_celsius_empty r Hempty) in *. congruence. }
    split; [assumption |]. subst k.
    destruct Hmoved as [Hnil|Hlt]; [assumption |].
    exfalso. exact (not_flt_neg_inf k0 Hlt). }
  split.
  - intros Hempty. destruct (Hscore Hempty) as [-> ->]. split.
    + destruct before; [reflexivity | discriminate].
    + rewrite Hks. cbn. constructor; [left; reflexivity |].
      eapply List.Forall_impl; [| exact Hlater].
      intros a Ha. apply not_above_neg_inf. exact Ha.
  - intros Hnan. inversion Hnan as [|k0' keys' Hnan0 Hnan']; subst.
    destruct (Hord Hnan0 Hnan') as [Hlt Hle].
    split; [assumption |]. split; [assumption |].
    intros Hempty. destruct (Hscore Hempty) as [-> ->].
    rewrite Hks. cbn. constructor; [reflexivity |].
    eapply List.Forall_impl; [| exact Hle].
    intros a Ha. apply fle_neg_inf. exact Ha.
Qed.

(** The tie scenario: 0 C, 32 F and 273.15 K all score 0 C, and the first
    record wins. *)
Lemma hottest_day_first_maximum_witness :
  hottest_day
    [init "d1" [B64.of_int 0] "celsius";
     init "d2" [B64.of_int 32] "fahrenheit";
     init "d3" [B64.of_ratio 27315 100] "kelvin"] = Ok "d1"%string.
Proof.
  destruct hottest_day_first_maximum as (_ & _ & H & _).
  destruct (H [init "d1" [B64.of_int 0] "celsius";
               init "d2" [B64.of_int 32] "fahrenheit";
               init "d3" [B64.of_ratio 27315 100] "kelvin"]
              [B64.zero; B64.zero; B64.zero])
    as (before & r & after & kb & k & ka & Hs & Hks & Hlen & Hr & _ & _ & Hord).
  - discriminate.
  - repeat constructor.
  - destruct Hord as (Hlt & _); [repeat constructor |].
    destruct kb as [|k0 kb'].
    + destruct before; [| discriminate]. injection Hs as <- _. exact Hr.
    + exfalso. injection Hks as <- Hks. inversion Hlt; subst.
      assert (Hin : In k [B64.zero; B64.zero; B64.zero]).
      { change [B64.zero; B64.zero; B64.zero]
          with ([B64.zero] ++ [B64.zero; B64.zero]).
        rewrite Hks. apply in_or_app. right. apply in_or_app. right.
        left. reflexivity. }
      simpl in Hin. decompose [or] Hin; try contradiction; subst;
        match goal with Hc : flt _ _ |- _ => vm_compute in Hc; discriminate end.
Defined.

(** A score that is a nan compares false with everything: a first record
    whose only reading is a nan is kept against a record at 5 C. *)
Example hottest_day_nan_first :
  hottest_day [init "d1" [B64.nan] "celsius";
               init "d2" [B64.of_int 5] "celsius"] = Ok "d1"%string /\
  hottest_day [init "d2" [B64.of_int 5] "celsius";
               init "d1" [B64.nan] "celsius"] = Ok "d2"%string.
Proof. vm_compute. split; reflexivity. Qed.

(** For the same reason a first record with empty readings is kept against
    a later record whose score is a nan. *)
Example hottest_day_empty_then_nan :
  hottest_day [init "d1" [] "celsius";
               init "d2" [B64.nan] "celsius"] = Ok "d1"%string.
Proof. vm_compute. reflexivity. Qed.

(** ** Errors *)

Lemma average_returns (records : list TemperatureRecord) :
  exists x, average_temperature_across_days records = Ok x.
Proof.
  unfold average_temperature_across_days.
  destruct (truthy (flat_map readings records)) eqn:Et; [| eauto].
  rewrite truediv_int_nonzero; [cbn [bind]; eauto |].
  apply len_nonzero. apply truthy_true. assumption.
Qed.

Lemma hottest_day_raise (records : list TemperatureRecord) (e : exn) :
  hottest_day records = Raise e -> invalid_scale_error e.
Proof.
  unfold hottest_day, py_max_key.
  destruct records as [|r0 rest]; cbn [truthy negb]; [discriminate |].
  destruct (avg_in_celsius r0) as [k0|e0] eqn:E0; cbn [bind].
  - destruct (max_key_loop avg_in_celsius r0 k0 rest) as [r|e'] eqn:El;
      cbn [bind]; [discriminate |].
    intros H. injection H as ->. apply max_key_loop_raise in El.
    destruct El as (item & _ & Hitem). eapply avg_in_celsius_raise. exact Hitem.
  - intros H. injection H as ->. eapply avg_in_celsius_raise. exact E0.
Qed.

Lemma trend_loop_returns (temps : list float) (indices : list nat)
  (trend : list string) :
  Forall (fun i => (1 <= i < length temps)%nat) indices ->
  exists l, trend_loop temps indices trend = Ok l.
Proof.
  revert trend. induction indices as [|i rest IH]; intros trend Hall;
    cbn [trend_loop]; [eauto |].
  inversion Hall as [|i' rest' Hi Hrest]; subst.
  destruct (py_index_in_range temps i) as (cur & _ & ->); [lia |].
  destruct (py_index_in_range temps (i - 1)) as (prev & _ & ->); [lia |].
  cbn [bind]. destruct (B64.ltb prev cur); [apply IH; assumption |].
  destruct (B64.ltb cur prev); apply IH; assumption.
Qed.

Lemma temperature_trend_returns (temps : list float) :
  exists l, temperature_trend temps = Ok l.
Proof.
  unfold temperature_trend. destruct (len temps <? 2); [eauto |].
  apply trend_loop_returns. apply List.Forall_forall.
  intros i Hi. apply range_from_1_In in Hi. lia.
Qed.

(** C4: [convert] raises exactly when one of its scale arguments, once
    lower-cased, is not one of celsius, fahrenheit, kelvin.  The error is a
    [ValueError] whose message names the argument, the original scale first
    when both are invalid, and carries its lower-cased value.  No other
    error is raised anywhere: [convert_to] and [hottest_day] can only pass
    that error on, and the other operations always return. *)
Theorem invalid_scale_is_the_only_error :
  (forall (v : float) (o t : string),
     ((exists e, convert v o t = Raise e) <->
      (~ valid_scale o \/ ~ valid_scale t)) /\
     (~ valid_scale o ->
        convert v o t =
          Raise (ValueError (Converter.invalid_original (lower o)))) /\
     (valid_scale o -> ~ valid_scale t ->
        convert v o t =
          Raise (ValueError (Converter.invalid_target (lower t)))) /\
     (forall e, convert v o t = Raise e -> invalid_scale_error e)) /\
  (forall target self e,
     (convert_to target self).1 = Raise e -> invalid_scale_error e) /\
  (forall records e, hottest_day records = Raise e -> invalid_scale_error e) /\
  (forall self, exists s, get_summary self = Ok s) /\
  (forall records, exists x, average_temperature_across_days records = Ok x) /\
  (forall records, exists m, temperature_range_for_each_day records = Ok m) /\
  (forall temps, exists l, temperature_trend temps = Ok l) /\
  (forall temps threshold, exists b, detect_spike temps threshold = Ok b).
Proof.
  split.
  { intros v o t. split; [| split; [| split]].
    - split.
      + intros [e He].
        destruct (valid_scale_dec o) as [Ho|Ho]; [| left; assumption].
        destruct (valid_scale_dec t) as [Ht|Ht]; [| right; assumption].
        destruct (convert_valid_returns v o t Ho Ht) as [w Hw]. congruence.
      + intros H. destruct (valid_scale_dec o) as [Ho|Ho].
        * destruct H as [H|H]; [contradiction |].
          eexists. apply convert_invalid_target; assumption.
        * eexists. apply convert_invalid_original; assumption.
    - apply convert_invalid_original.
    - apply convert_invalid_target.
    - apply convert_raise_invalid_scale. }
  split; [intros target self e H; apply (convert_to_raise target self e H) |].
  split; [apply hottest_day_raise |].
  split; [apply get_summary_returns |].
  split; [apply average_returns |].
  split; [apply temperature_range_returns |].
  split; [apply temperature_trend_returns | apply detect_spike_returns].
Qed.

Lemma invalid_scale_is_the_only_error_witness :
  convert (B64.of_int 100) "bogus" "celsius" =
    Raise (ValueError (Converter.invalid_original (lower "bogus"))) /\
  convert (B64.of_int 100) "celsius" "Bogus" =
    Raise (ValueError (Converter.invalid_target (lower "Bogus"))).
Proof.
  destruct invalid_scale_is_the_only_error as (H & _).
  split.
  - apply (H (B64.of_int 100) "bogus"%string "celsius"%string).
    unfold valid_scale. simpl. intros Hc.
    decompose [or] Hc; discriminate || assumption.
  - apply (H (B64.of_int 100) "celsius"%string "Bogus"%string).
    + unfold valid_scale. simpl. left. reflexivity.
    + unfold valid_scale. simpl. intros Hc.
      decompose [or] Hc; discriminate || assumption.
Defined.

(** The messages of the two error scenarios. *)
Example convert_error_messages :
  convert (B64.of_int 100) "bogus" "celsius" =
    Raise (ValueError
      "Invalid original scale: bogus. Use 'celsius', 'fahrenheit', or 'kelvin'.") /\
  convert (B64.of_int 100) "celsius" "Bogus" =
    Raise (ValueError
      "Invalid target scale: bogus. Use 'celsius', 'fahrenheit', or 'kelvin'.").
Proof. vm_compute. split; reflexivity. Qed.

(** ** converter.py: round trips *)

(** C2, as stated, fails on binary64: 32.0629 F converts to 0.03 C, which
    converts back to 32.05 F, 0.0129 away from the start. *)
Lemma round_trip_exceeds_one_hundredth :
  ~ (forall (v : float) (A B : string),
       valid_scale A -> valid_scale B -> lower A <> lower B ->
       exists u w,
         convert v A B = Ok u /\ convert u B A = Ok w /\
         within (1 # 100) w v).
Proof.
  intros H.
  destruct (H (B64.of_ratio 320629 10000) "fahrenheit"%string "celsius"%string)
    as (u & w & Hu & Hw & (a & b & Ha & Hb & Hab)).
  - unfold valid_scale. simpl. auto.
  - unfold valid_scale. simpl. auto.
  - simpl. discriminate.
  - vm_compute in Hu. injection Hu as <-.
    vm_compute in Hw. injection Hw as <-.
    vm_compute in Ha. injection Ha as <-.
    vm_compute in Hb. injection Hb as <-.
    vm_compute in Hab. apply Hab. reflexivity.
Qed.

Example round_trip_fahrenheit_celsius :
  valid_binary B64.prec B64.emax (B64.of_ratio 320629 10000) = true /\
  B64.of_ratio 320629 10000 = S754_finite false 0x10080d1b71758e (-47) /\
  convert (B64.of_ratio 320629 10000) "fahrenheit" "celsius"
    = Ok (B64.of_ratio 3 100) /\
  convert (B64.of_ratio 3 100) "celsius" "fahrenheit"
    = Ok (B64.of_ratio 3205 100).
Proof. vm_compute. repeat split; reflexivity. Qed.

Lemma div_half_even_spec (a b : Z) :
  0 < b -> - b <= 2 * (div_half_even a b * b - a) <= b.
Proof.
  intros Hb. unfold div_half_even.
  pose proof (Z.div_mod a b ltac:(lia)) as Hdm.
  pose proof (Z.mod_pos_bound a b Hb) as Hr.
  destruct (Z.compare_spec (2 * (a mod b)) b) as [He|Hl|Hg].
  - destruct (Z.even (a / b)); nia.
  - nia.
  - nia.
Qed.

Lemma valid_scale_cases (s : string) :
  valid_scale s ->
  lower s = "celsius"%string \/ lower s = "fahrenheit"%string \/
  lower s = "kelvin"%string.
Proof.
  unfold valid_scale. simpl. intros [H|[H|[H|[]]]]; auto.
Qed.

(** *** Rounding errors of binary64 arithmetic

    The bounds below are derived from the definitions of [SpecFloat]: an
    operation whose exact result is below [2 ^ K] in magnitude returns a
    finite double within [2 ^ (K - 51)] of that result. *)

Lemma pow2_pos (e : Z) : (0 < pow2 e)%Q.
Proof. apply Qpower_0_lt. reflexivity. Qed.

Lemma pow2_add (a b : Z) : (pow2 (a + b) == pow2 a * pow2 b)%Q.
Proof. apply Qpower_plus. discriminate. Qed.

Lemma pow2_le (a b : Z) : a <= b -> (pow2 a <= pow2 b)%Q.
Proof. intros H. apply Qpower_le_compat_l; [assumption | discriminate]. Qed.

Lemma pow2_lt (a b : Z) : a < b -> (pow2 a < pow2 b)%Q.
Proof. intros H. apply Qpower_lt_compat_l; [assumption | reflexivity]. Qed.

Lemma pow2_lt_inv (a b : Z) : (pow2 a < pow2 b)%Q -> a < b.
Proof. intros H. eapply Qpower_lt_compat_l_inv; [exact H | reflexivity]. Qed.

Lemma pow2_Z (e : Z) : 0 <= e -> (pow2 e == inject_Z (2 ^ e))%Q.
Proof. intros H. unfold pow2. rewrite Zpower_Qpower by assumption. reflexivity. Qed.

Lemma pow2_succ (e : Z) : (pow2 (e + 1) == 2 * pow2 e)%Q.
Proof. rewrite pow2_add. change (pow2 1) with 2%Q. ring. Qed.

Lemma pow2_pred (e : Z) : (pow2 (e - 1) == pow2 e / 2)%Q.
Proof.
  replace e with ((e - 1) + 1) at 2 by lia. rewrite pow2_succ. field.
Qed.

(** A positive integer lies between the powers of two its number of binary
    digits names. *)
Lemma digits2_pos_bounds (p : positive) :
  2 ^ (Zpos (digits2_pos p) - 1) <= Zpos p < 2 ^ Zpos (digits2_pos p).
Proof.
  induction p as [p IH|p IH|]; cbn [digits2_pos].
  - rewrite Pos2Z.inj_succ.
    replace (Z.succ (Z.pos (digits2_pos p)) - 1) with (Z.pos (digits2_pos p) - 1 + 1) by lia.
    rewrite Z.pow_add_r by lia. rewrite Z.pow_succ_r by lia. lia.
  - rewrite Pos2Z.inj_succ.
    replace (Z.succ (Z.pos (digits2_pos p)) - 1) with (Z.pos (digits2_pos p) - 1 + 1) by lia.
    rewrite Z.pow_add_r by lia. rewrite Z.pow_succ_r by lia. lia.
  - simpl. lia.
Qed.

(** Shifting bits out of a mantissa keeps the dropped part located. *)
Lemma loc_of_shr_record_of_loc (m : Z) (l : location) :
  loc_of_shr_record (shr_record_of_loc m l) = l /\ shr_m (shr_record_of_loc m l) = m.
Proof. destruct l as [|[]]; split; reflexivity. Qed.

Lemma locates_shr_1 (mrs : shr_record) (x : Q) :
  locates mrs x -> locates (shr_1 mrs) (x * (1 # 2)).
Proof.
  destruct mrs as [m r s]. unfold locates, inbetween. cbn [shr_m].
  intros [Hm Hl].
  destruct m as [|[p|p|]|p]; try lia.
  - destruct r, s; cbn in *; change (inject_Z 0) with 0%Q in *;
      split; try lia; try lra.
  - assert (E : (inject_Z (Z.pos p~1) == 2 * inject_Z (Z.pos p) + 1)%Q).
    { rewrite Pos2Z.inj_xI, inject_Z_plus, inject_Z_mult. reflexivity. }
    destruct r, s; cbn in *; split; try lia; rewrite E in Hl; try lra.
  - assert (E : (inject_Z (Z.pos p~0) == 2 * inject_Z (Z.pos p))%Q).
    { rewrite Pos2Z.inj_xO, inject_Z_mult. reflexivity. }
    destruct r, s; cbn in *; split; try lia; rewrite E in Hl; try lra.
  - destruct r, s; cbn in *; change (inject_Z 1) with 1%Q in *;
      change (inject_Z 0) with 0%Q in *; split; try lia; try lra.
Qed.

Lemma loc_ok_proper (l : location) (f g : Q) : (f == g)%Q -> loc_ok l f -> loc_ok l g.
Proof. intros E. destruct l as [|[]]; cbn; intros H; lra. Qed.

Lemma inbetween_proper (m : Z) (l : location) (x y : Q) :
  (x == y)%Q -> inbetween m l x -> inbetween m l y.
Proof.
  intros E [Hm Hl]. split; [assumption |].
  eapply loc_ok_proper; [| exact Hl]. lra.
Qed.

Lemma locates_proper (mrs : shr_record) (x y : Q) :
  (x == y)%Q -> locates mrs x -> locates mrs y.
Proof. apply inbetween_proper. Qed.

Lemma pow2_neg1 : (pow2 (-1) == 1 # 2)%Q.
Proof. reflexivity. Qed.

Lemma locates_iter (p : positive) (mrs : shr_record) (x : Q) :
  locates mrs x -> locates (SpecFloat.iter_pos shr_1 p mrs) (x * pow2 (- Zpos p)).
Proof.
  revert mrs x. induction p as [p IH|p IH|]; intros mrs x H; cbn [SpecFloat.iter_pos].
  - apply locates_shr_1 in H. apply IH in H. apply IH in H.
    eapply locates_proper; [| exact H].
    replace (- Z.pos p~1) with (-1 + (- Z.pos p + - Z.pos p)) by lia.
    rewrite !pow2_add. change (pow2 (-1)) with (1 # 2)%Q. ring.
  - apply IH in H. apply IH in H.
    eapply locates_proper; [| exact H].
    replace (- Z.pos p~0) with (- Z.pos p + - Z.pos p) by lia.
    rewrite !pow2_add. ring.
  - apply locates_shr_1 in H. eapply locates_proper; [| exact H].
    change (pow2 (- 1)) with (1 # 2)%Q. reflexivity.
Qed.

Lemma fexp_eq (e : Z) : fexp e = Z.max (e - 53) (-1074).
Proof. reflexivity. Qed.

Lemma shr_fexp_spec (m e : Z) (l : location) (x : Q) :
  inbetween m l x ->
  exists mrs',
    shr_fexp B64.prec B64.emax m e l = (mrs', e + Z.max (fexp (Zdigits2 m + e) - e) 0) /\
    locates mrs' (x * pow2 (- Z.max (fexp (Zdigits2 m + e) - e) 0)).
Proof.
  intros H. unfold shr_fexp, shr. fold (fexp (Zdigits2 m + e)).
  assert (H0 : locates (shr_record_of_loc m l) x).
  { unfold locates. destruct (loc_of_shr_record_of_loc m l) as [-> ->]. exact H. }
  destruct (fexp (Zdigits2 m + e) - e) as [|p|p] eqn:En.
  - eexists. split; [rewrite Z.add_0_r; reflexivity |].
    eapply locates_proper; [| exact H0].
    change (pow2 (- Z.max 0 0)) with 1%Q. ring.
  - eexists. split; [rewrite Z.max_l by lia; reflexivity |].
    rewrite Z.max_l by lia. apply locates_iter. exact H0.
  - eexists. split; [rewrite Z.max_r by lia; rewrite Z.add_0_r; reflexivity |].
    rewrite Z.max_r by lia.
    eapply locates_proper; [| exact H0].
    change (pow2 (- 0)) with 1%Q. ring.
Qed.

(** Rounding to nearest moves the mantissa by at most one half. *)
Lemma round_nearest_even_spec (m : Z) (l : location) (x : Q) :
  inbetween m l x ->
  m <= round_nearest_even m l <= m + 1 /\
  (Qabs (inject_Z (round_nearest_even m l) - x) <= 1 # 2)%Q.
Proof.
  intros [Hm Hl]. unfold round_nearest_even.
  assert (E1 : (inject_Z (m + 1) == inject_Z m + 1)%Q).
  { rewrite inject_Z_plus. reflexivity. }
  destruct l as [|[]]; cbn in Hl;
    try destruct (Z.even m); (split; [lia |]);
    apply Qabs_Qle_condition; rewrite ?E1; split; lra.
Qed.

Lemma inbetween_bounds (m : Z) (l : location) (x : Q) :
  inbetween m l x -> 0 <= m /\ (inject_Z m <= x /\ x < inject_Z m + 1)%Q.
Proof.
  intros [Hm Hl]. split; [assumption |].
  destruct l as [|[]]; cbn in Hl; split; lra.
Qed.

Lemma digits_pow2 (m : Z) :
  0 < m -> (pow2 (Zdigits2 m - 1) <= inject_Z m /\ inject_Z m < pow2 (Zdigits2 m))%Q.
Proof.
  intros Hm. destruct m as [|p|p]; try lia. cbn [Zdigits2].
  pose proof (digits2_pos_bounds p) as [H1 H2].
  rewrite !pow2_Z by lia. rewrite <- Zle_Qle, <- Zlt_Qlt. split; assumption.
Qed.

Lemma Zdigits2_nonneg (m : Z) : 0 <= Zdigits2 m.
Proof. destruct m; cbn; lia. Qed.

Lemma bound_exp (m e K : Z) :
  0 < m -> (inject_Z m * pow2 e < pow2 K)%Q -> Zdigits2 m + e <= K.
Proof.
  intros Hm H. destruct (digits_pow2 m Hm) as [H1 _].
  assert (H2 : (pow2 (Zdigits2 m - 1 + e) < pow2 K)%Q).
  { rewrite pow2_add. eapply Qle_lt_trans; [| exact H].
    apply Qmult_le_compat_r; [assumption |]. apply Qlt_le_weak, pow2_pos. }
  apply pow2_lt_inv in H2. lia.
Qed.

Lemma pow2_inv (t : Z) : (pow2 (- t) * pow2 t == 1)%Q.
Proof. rewrite <- pow2_add. replace (- t + t) with 0 by lia. reflexivity. Qed.

Lemma locates_integer (mrs : shr_record) (z : Z) :
  locates mrs (inject_Z z) ->
  shr_m mrs = z /\ loc_of_shr_record mrs = loc_Exact.
Proof.
  intros H. destruct (inbetween_bounds _ _ _ H) as (_ & Hlo & Hhi).
  assert (E : shr_m mrs = z).
  { rewrite <- Zle_Qle in Hlo.
    assert (Hhi' : (inject_Z z < inject_Z (shr_m mrs + 1))%Q).
    { rewrite inject_Z_plus. exact Hhi. }
    rewrite <- Zlt_Qlt in Hhi'. lia. }
  split; [assumption |].
  destruct H as [_ Hl]. rewrite E in Hl.
  destruct (loc_of_shr_record mrs) as [|[]]; [reflexivity | | |];
    cbn in Hl; lra.
Qed.

Lemma fexp_ge (e : Z) : -1074 <= fexp e.
Proof. rewrite fexp_eq. lia. Qed.

Lemma round_nearest_even_exact (m : Z) : round_nearest_even m loc_Exact = m.
Proof. reflexivity. Qed.

Lemma Zdigits2_pos (m : Z) : 0 < m -> 1 <= Zdigits2 m.
Proof. destruct m; cbn; lia. Qed.

Lemma Qabs_le_iff (x y : Q) : (Qabs x <= y <-> - y <= x /\ x <= y)%Q.
Proof. apply Qabs_Qle_condition. Qed.

Lemma scaled_error (a b p : Q) :
  (0 < p)%Q -> (Qabs (a - b) <= 1 # 2)%Q ->
  (Qabs (a * p - b * p) <= p * (1 # 2))%Q.
Proof.
  intros Hp H. apply Qabs_Qle_condition in H. destruct H as [H1 H2].
  apply Qabs_Qle_condition.
  assert (G1 : ((a - b) * p <= (1 # 2) * p)%Q)
    by (apply Qmult_le_compat_r; lra).
  assert (G2 : ((-(1 # 2)) * p <= (a - b) * p)%Q)
    by (apply Qmult_le_compat_r; lra).
  split; lra.
Qed.

(** The rounding every operation ends with: a located non-negative number
    below [2 ^ K] becomes a finite double at most [2 ^ (K - 51)] away; the
    double is finite because [K] is far below the overflow threshold. *)
Lemma binary_round_aux_spec (s : bool) (mx ex K : Z) (lx : location) (x : Q) :
  -1000 <= K <= 900 ->
  inbetween mx lx x ->
  (x * pow2 ex < pow2 K)%Q ->
  lx = loc_Exact \/ ex <= K - 53 ->
  finite_or_zero (binary_round_aux B64.prec B64.emax s mx ex lx) /\
  exists q,
    (val (binary_round_aux B64.prec B64.emax s mx ex lx) == signed s q /\
     0 <= q /\ Qabs (q - x * pow2 ex) <= pow2 (K - 51))%Q.
Proof.
  intros HK Hin HV Hcase.
  destruct (inbetween_bounds _ _ _ Hin) as (Hmx & Hlo & Hhi).
  destruct (shr_fexp_spec mx ex lx x Hin) as (mrs1 & E1 & L1).
  remember (Z.max (fexp (Zdigits2 mx + ex) - ex) 0) as t1 eqn:Et1.
  remember (ex + t1) as e1 eqn:Ee1.
  remember (x * pow2 (- t1))%Q as x1 eqn:Ex1.
  assert (Hx1 : (x * pow2 ex == x1 * pow2 e1)%Q).
  { subst x1 e1. rewrite (pow2_add ex t1).
    transitivity (x * pow2 ex * (pow2 (- t1) * pow2 t1))%Q; [| ring].
    rewrite pow2_inv. ring. }
  destruct (round_nearest_even_spec _ _ _ L1) as (Hm1 & Herr1).
  destruct (inbetween_bounds _ _ _ L1) as (Hs1 & Hlo1 & Hhi1).
  remember (round_nearest_even (shr_m mrs1) (loc_of_shr_record mrs1)) as m1 eqn:Em1.
  assert (He1 : -1074 <= e1).
  { subst e1 t1. pose proof (fexp_ge (Zdigits2 mx + ex)). lia. }
  assert (Hin1 : inbetween m1 loc_Exact (inject_Z m1)).
  { split; [lia |]. cbn. ring. }
  destruct (shr_fexp_spec m1 e1 loc_Exact (inject_Z m1) Hin1) as (mrs2 & E2 & L2).
  remember (Z.max (fexp (Zdigits2 m1 + e1) - e1) 0) as t2 eqn:Et2.
  remember (e1 + t2) as e2 eqn:Ee2.
  destruct (inbetween_bounds _ _ _ L2) as (Hs2 & Hlo2 & Hhi2).
  remember (shr_m mrs2) as m2 eqn:Em2.
  assert (Hres : binary_round_aux B64.prec B64.emax s mx ex lx =
                 match m2 with
                 | Z0 => S754_zero s
                 | Zpos m => if e2 <=? B64.emax - B64.prec then S754_finite s m e2
                             else S754_infinity s
                 | Zneg _ => S754_nan
                 end).
  { unfold binary_round_aux. rewrite E1, <- Em1, E2, <- Em2. reflexivity. }
  assert (Hm2 : (inject_Z m2 * pow2 e2 <= inject_Z m1 * pow2 e1 /\
                 inject_Z m1 * pow2 e1 < inject_Z m2 * pow2 e2 + pow2 e2)%Q).
  { assert (E : (inject_Z m1 * pow2 e1 == inject_Z m1 * pow2 (- t2) * pow2 e2)%Q).
    { rewrite Ee2. rewrite (pow2_add e1 t2).
      transitivity (inject_Z m1 * pow2 e1 * (pow2 (- t2) * pow2 t2))%Q; [| ring].
      rewrite pow2_inv. ring. }
    rewrite E. pose proof (pow2_pos e2) as Hp. split.
    - apply Qmult_le_compat_r; [assumption | lra].
    - setoid_replace (inject_Z m2 * pow2 e2 + pow2 e2)%Q
        with ((inject_Z m2 + 1) * pow2 e2)%Q using relation Qeq by ring.
      apply Qmult_lt_compat_r; assumption. }
  assert (Hd : 0 < mx -> Zdigits2 mx + ex <= K).
  { intros Hp. apply bound_exp; [assumption |].
    eapply Qle_lt_trans; [| exact HV].
    apply Qmult_le_compat_r; [exact Hlo | apply Qlt_le_weak, pow2_pos]. }
  assert (Ht1 : 0 < t1 -> e1 <= K - 53).
  { intros Ht. rewrite Ee1. rewrite Et1 in *. rewrite fexp_eq in *.
    destruct (Z.eq_dec mx 0) as [->|Hne].
    - cbn [Zdigits2] in *. lia.
    - specialize (Hd ltac:(lia)). lia. }
  assert (Hsplit : (lx = loc_Exact /\ t1 = 0) \/ e1 <= K - 53).
  { destruct (Z.eq_dec t1 0) as [Ht0|Ht0].
    - destruct Hcase as [Hc|Hc]; [left; split; assumption | right; lia].
    - right. apply Ht1. lia. }
  assert (HF : (Qabs (inject_Z m2 * pow2 e2 - x * pow2 ex) <= pow2 (K - 51))%Q /\
               (0 < m2 -> e2 <= 971)).
  { destruct Hsplit as [[Hex Ht0]|HeK].
    - (* nothing is shifted out: the result is exact *)
      subst lx. destruct Hin as [_ Hx]. cbn in Hx.
      assert (Hxm : (x == inject_Z mx)%Q) by lra.
      rewrite Ht0 in *. change (pow2 (- 0)) with 1%Q in *.
      assert (L1' : locates mrs1 (inject_Z mx)).
      { apply (locates_proper mrs1 x1); [| assumption]. rewrite Ex1, Hxm. ring. }
      destruct (locates_integer _ _ L1') as [Es1 El1].
      rewrite Es1, El1, round_nearest_even_exact in Em1.
      assert (Ee1' : e1 = ex) by lia.
      rewrite Em1, Ee1' in Et2. rewrite <- Et1 in Et2.
      rewrite Et2 in *. change (pow2 (- 0)) with 1%Q in *.
      assert (L2' : locates mrs2 (inject_Z mx)).
      { apply (locates_proper mrs2 (inject_Z m1 * 1)%Q); [| assumption].
        rewrite Em1. ring. }
      destruct (locates_integer _ _ L2') as [Es2 _].
      assert (Em2' : m2 = mx) by congruence.
      assert (Ee2' : e2 = ex) by lia.
      rewrite Em2', Ee2'. split.
      + setoid_replace (inject_Z mx * pow2 ex - x * pow2 ex)%Q with 0%Q
          using relation Qeq by (rewrite Hxm; ring).
        cbn. apply Qlt_le_weak, pow2_pos.
      + intros Hp. specialize (Hd Hp).
        pose proof (Zdigits2_pos mx Hp). lia.
    - (* at most one rounding and one truncation *)
      pose proof (pow2_pos e1) as Hp1. pose proof (pow2_pos e2) as Hp2.
      pose proof (scaled_error _ _ _ Hp1 Herr1) as A1.
      rewrite <- Hx1 in A1. apply Qabs_Qle_condition in A1.
      pose proof (pow2_le e1 (K - 53) HeK) as A2.
      pose proof (pow2_le (K - 53) (K - 52) ltac:(lia)) as A2'.
      pose proof (pow2_le (K - 52) K ltac:(lia)) as A2''.
      pose proof (pow2_succ K) as S1.
      pose proof (pow2_succ (K - 52)) as S2.
      replace (K - 52 + 1) with (K - 51) in S2 by lia.
      assert (A3 : (inject_Z m1 * pow2 e1 < pow2 (K + 1))%Q) by lra.
      assert (A4 : e2 <= K - 52).
      { rewrite Ee2, Et2, fexp_eq.
        destruct (Z.eq_dec m1 0) as [Hz|Hnz].
        - rewrite Hz. cbn [Zdigits2]. lia.
        - pose proof (bound_exp m1 e1 (K + 1) ltac:(lia) A3). lia. }
      pose proof (pow2_le e2 (K - 52) A4) as A5.
      split; [| lia].
      apply Qabs_Qle_condition. split; lra. }
  destruct HF as [HF1 HF2]. rewrite Hres.
  destruct m2 as [|p|p]; [| | lia].
  - split; [exact I |]. exists 0%Q. split; [destruct s; reflexivity |].
    split; [lra |].
    setoid_replace (inject_Z 0 * pow2 e2)%Q with 0%Q using relation Qeq in HF1 by ring. exact HF1.
  - specialize (HF2 ltac:(lia)).
    replace (e2 <=? B64.emax - B64.prec) with true
      by (symmetry; apply Z.leb_le; unfold B64.emax, B64.prec; lia).
    split; [exact I |]. exists (inject_Z (Zpos p) * pow2 e2)%Q.
    split; [destruct s; reflexivity |]. split; [| exact HF1].
    apply Qmult_le_0_compat; [| apply Qlt_le_weak, pow2_pos].
    change 0%Q with (inject_Z 0). rewrite <- Zle_Qle. lia.
Qed.

Lemma iter_xO (d mx : positive) : Zpos (Pos.iter xO mx d) = Zpos mx * 2 ^ Zpos d.
Proof.
  revert mx. induction d using Pos.peano_ind; intros mx.
  - cbn [Pos.iter]. lia.
  - rewrite Pos.iter_succ, Pos2Z.inj_succ, Z.pow_succ_r by lia.
    rewrite Pos2Z.inj_xO, IHd. lia.
Qed.

Lemma shl_align_value (mx : positive) (ex ex' : Z) :
  (inject_Z (Zpos (fst (shl_align mx ex ex'))) * pow2 (snd (shl_align mx ex ex'))
   == inject_Z (Zpos mx) * pow2 ex)%Q.
Proof.
  unfold shl_align. destruct (ex' - ex) as [|d|d] eqn:E; cbn [fst snd];
    try reflexivity.
  rewrite iter_xO, inject_Z_mult, <- pow2_Z by lia.
  replace ex with (Zpos d + ex') by lia. rewrite (pow2_add (Zpos d) ex'). ring.
Qed.

Lemma shl_align_snd_le (mx : positive) (ex ex' : Z) :
  snd (shl_align mx ex ex') <= ex.
Proof.
  unfold shl_align. destruct (ex' - ex) as [|d|d] eqn:E; cbn [snd]; lia.
Qed.

Lemma shl_align_snd_min (mx : positive) (ex ex' : Z) :
  ex' <= ex -> snd (shl_align mx ex ex') = ex'.
Proof.
  intros H. unfold shl_align. destruct (ex' - ex) as [|d|d] eqn:E; cbn [snd]; lia.
Qed.

#[global] Instance signed_proper : Proper (eq ==> Qeq ==> Qeq) signed.
Proof. intros s ? <- a b H. destruct s; cbn; rewrite H; reflexivity. Qed.

Lemma signed_error (s : bool) (q a d : Q) :
  (Qabs (q - a) <= d)%Q -> (Qabs (signed s q - signed s a) <= d)%Q.
Proof.
  intros H. apply Qabs_Qle_condition in H. apply Qabs_Qle_condition.
  destruct s; cbn; lra.
Qed.

Lemma binary_round_spec (s : bool) (mx : positive) (ex K : Z) :
  -1000 <= K <= 900 ->
  (inject_Z (Zpos mx) * pow2 ex < pow2 K)%Q ->
  finite_or_zero (binary_round B64.prec B64.emax s mx ex) /\
  (Qabs (val (binary_round B64.prec B64.emax s mx ex)
         - signed s (inject_Z (Zpos mx) * pow2 ex)) <= pow2 (K - 51))%Q.
Proof.
  intros HK HV. unfold binary_round.
  pose proof (shl_align_value mx ex
                (SpecFloat.fexp B64.prec B64.emax (Zpos (digits2_pos mx) + ex))) as Hv.
  destruct (shl_align mx ex _) as [mz ez]. cbn [fst snd] in Hv.
  destruct (binary_round_aux_spec s (Zpos mz) ez K loc_Exact (inject_Z (Zpos mz)))
    as (Hf & q & Hq & _ & Herr).
  - assumption.
  - split; [lia |]. cbn. ring.
  - rewrite Hv. assumption.
  - left. reflexivity.
  - split; [assumption |]. rewrite Hq, <- Hv. apply signed_error. assumption.
Qed.

Lemma val_bound_abs (q k : Q) : (Qabs q < k)%Q -> (q < k /\ - q < k)%Q.
Proof.
  intros H. split.
  - eapply Qle_lt_trans; [apply Qle_Qabs | exact H].
  - eapply Qle_lt_trans; [| exact H]. rewrite <- Qabs_opp. apply Qle_Qabs.
Qed.

Lemma binary_normalize_spec (m e K : Z) (szero : bool) :
  -1000 <= K <= 900 ->
  (Qabs (inject_Z m * pow2 e) < pow2 K)%Q ->
  finite_or_zero (binary_normalize B64.prec B64.emax m e szero) /\
  (Qabs (val (binary_normalize B64.prec B64.emax m e szero) - inject_Z m * pow2 e)
   <= pow2 (K - 51))%Q.
Proof.
  intros HK HV. apply val_bound_abs in HV. destruct HV as [HV1 HV2].
  destruct m as [|p|p]; cbn [binary_normalize].
  - split; [exact I |]. cbn [val].
    setoid_replace (0 - inject_Z 0 * pow2 e)%Q with 0%Q using relation Qeq by ring.
    cbn. apply Qlt_le_weak, pow2_pos.
  - destruct (binary_round_spec false p e K HK HV1) as [Hf He].
    split; assumption.
  - assert (HV : (inject_Z (Zpos p) * pow2 e < pow2 K)%Q).
    { setoid_replace (inject_Z (Zpos p) * pow2 e)%Q
        with (- (inject_Z (Zneg p) * pow2 e))%Q using relation Qeq;
        [assumption |].
      change (Zneg p) with (- Zpos p). rewrite inject_Z_opp. ring. }
    destruct (binary_round_spec true p e K HK HV) as [Hf He].
    split; [assumption |].
    setoid_replace (inject_Z (Zneg p) * pow2 e)%Q
      with (signed true (inject_Z (Zpos p) * pow2 e)) using relation Qeq;
      [assumption |].
    cbn. change (Zneg p) with (- Zpos p). rewrite inject_Z_opp. ring.
Qed.

Lemma aligned_value (s : bool) (mx : positive) (ex ez : Z) :
  ez <= ex ->
  (inject_Z (cond_Zopp s (Zpos (fst (shl_align mx ex ez)))) * pow2 ez
   == val (S754_finite s mx ex))%Q.
Proof.
  intros H. pose proof (shl_align_value mx ex ez) as Hv.
  rewrite (shl_align_snd_min mx ex ez H) in Hv.
  destruct s; cbn [cond_Zopp val].
  - rewrite inject_Z_opp, <- Hv. ring.
  - exact Hv.
Qed.

Lemma zero_error (K : Z) (a b : Q) : (a == b)%Q -> (Qabs (a - b) <= pow2 K)%Q.
Proof.
  intros H. setoid_replace (a - b)%Q with 0%Q using relation Qeq
    by (rewrite H; ring).
  cbn. apply Qlt_le_weak, pow2_pos.
Qed.

(** Addition: the exact sum, rounded once. *)
Lemma SFadd_spec (x y : float) (K : Z) :
  -1000 <= K <= 900 ->
  finite_or_zero x -> finite_or_zero y ->
  (Qabs (val x + val y) < pow2 K)%Q ->
  finite_or_zero (SFadd B64.prec B64.emax x y) /\
  (Qabs (val (SFadd B64.prec B64.emax x y) - (val x + val y)) <= pow2 (K - 51))%Q.
Proof.
  intros HK Hx Hy HV.
  destruct x as [sx| | |sx mx ex], y as [sy| | |sy my ey]; try contradiction.
  - split; [destruct sx, sy; exact I |].
    apply zero_error. destruct sx, sy; reflexivity.
  - split; [exact I |]. apply zero_error. cbn [SFadd val]. ring.
  - split; [exact I |]. apply zero_error. cbn [SFadd val]. ring.
  - cbn [SFadd].
    set (ez := Z.min ex ey).
    set (m := cond_Zopp sx (Zpos (fst (shl_align mx ex ez)))
              + cond_Zopp sy (Zpos (fst (shl_align my ey ez)))).
    assert (Hm : (inject_Z m * pow2 ez
                  == val (S754_finite sx mx ex) + val (S754_finite sy my ey))%Q).
    { unfold m. rewrite inject_Z_plus, Qmult_plus_distr_l.
      rewrite !aligned_value by (unfold ez; lia). reflexivity. }
    rewrite <- Hm in HV |- *.
    apply binary_normalize_spec; assumption.
Qed.

(** Subtraction: the exact difference, rounded once. *)
Lemma SFsub_spec (x y : float) (K : Z) :
  -1000 <= K <= 900 ->
  finite_or_zero x -> finite_or_zero y ->
  (Qabs (val x - val y) < pow2 K)%Q ->
  finite_or_zero (SFsub B64.prec B64.emax x y) /\
  (Qabs (val (SFsub B64.prec B64.emax x y) - (val x - val y)) <= pow2 (K - 51))%Q.
Proof.
  intros HK Hx Hy HV.
  destruct x as [sx| | |sx mx ex], y as [sy| | |sy my ey]; try contradiction.
  - split; [destruct sx, sy; exact I |].
    apply zero_error. destruct sx, sy; reflexivity.
  - split; [exact I |]. apply zero_error. cbn [SFsub val].
    destruct sy; cbn [negb]; ring.
  - split; [exact I |]. apply zero_error. cbn [SFsub val]. ring.
  - cbn [SFsub].
    set (ez := Z.min ex ey).
    set (m := cond_Zopp sx (Zpos (fst (shl_align mx ex ez)))
              - cond_Zopp sy (Zpos (fst (shl_align my ey ez)))).
    assert (Hm : (inject_Z m * pow2 ez
                  == val (S754_finite sx mx ex) - val (S754_finite sy my ey))%Q).
    { unfold m. unfold Z.sub. rewrite inject_Z_plus, inject_Z_opp.
      transitivity
        (inject_Z (cond_Zopp sx (Zpos (fst (shl_align mx ex ez)))) * pow2 ez
         - inject_Z (cond_Zopp sy (Zpos (fst (shl_align my ey ez)))) * pow2 ez)%Q;
        [ring |].
      rewrite !aligned_value by (unfold ez; lia). reflexivity. }
    rewrite <- Hm in HV |- *.
    apply binary_normalize_spec; assumption.
Qed.

Lemma val_signed (s : bool) (m : positive) (e : Z) :
  (val (S754_finite s m e) == signed s (inject_Z (Zpos m) * pow2 e))%Q.
Proof. destruct s; reflexivity. Qed.

Lemma signed_mul (sx sy : bool) (a b : Q) :
  (signed sx a * signed sy b == signed (xorb sx sy) (a * b))%Q.
Proof. destruct sx, sy; cbn; ring. Qed.

Lemma Qabs_signed (s : bool) (a : Q) : (0 <= a)%Q -> (Qabs (signed s a) == a)%Q.
Proof.
  intros H. destruct s; cbn [signed].
  - rewrite Qabs_opp. apply Qabs_pos. assumption.
  - apply Qabs_pos. assumption.
Qed.

(** Multiplication: the exact product, rounded once. *)
Lemma SFmul_spec (x y : float) (K : Z) :
  -1000 <= K <= 900 ->
  finite_or_zero x -> finite_or_zero y ->
  (Qabs (val x * val y) < pow2 K)%Q ->
  finite_or_zero (SFmul B64.prec B64.emax x y) /\
  (Qabs (val (SFmul B64.prec B64.emax x y) - val x * val y) <= pow2 (K - 51))%Q.
Proof.
  intros HK Hx Hy HV.
  destruct x as [sx| | |sx mx ex], y as [sy| | |sy my ey]; try contradiction.
  - split; [exact I |]. apply zero_error. cbn [SFmul val]. ring.
  - split; [exact I |]. apply zero_error. cbn [SFmul val]. ring.
  - split; [exact I |]. apply zero_error. cbn [SFmul val]. ring.
  - cbn [SFmul].
    assert (Hp : (val (S754_finite sx mx ex) * val (S754_finite sy my ey)
                  == signed (xorb sx sy)
                       (inject_Z (Zpos (mx * my)) * pow2 (ex + ey)))%Q).
    { rewrite !val_signed, signed_mul. apply signed_proper; [reflexivity |].
      rewrite Pos2Z.inj_mul, inject_Z_mult, pow2_add. ring. }
    assert (H0 : (0 <= inject_Z (Zpos (mx * my)) * pow2 (ex + ey))%Q).
    { apply Qmult_le_0_compat; [| apply Qlt_le_weak, pow2_pos].
      change 0%Q with (inject_Z 0). rewrite <- Zle_Qle. lia. }
    rewrite Hp in HV |- *. rewrite (Qabs_signed _ _ H0) in HV.
    destruct (binary_round_aux_spec (xorb sx sy) (Zpos (mx * my)) (ex + ey) K
                loc_Exact (inject_Z (Zpos (mx * my))))
      as (Hf & q & Hq & _ & Herr).
    + assumption.
    + split; [lia |]. cbn. ring.
    + assumption.
    + left. reflexivity.
    + split; [assumption |]. rewrite Hq. apply signed_error. assumption.
Qed.

(** The location computed from the remainder of an integer division. *)
Lemma new_location_spec (p : positive) (r : Z) :
  0 <= r < Zpos p -> loc_ok (new_location (Zpos p) r) (r # p).
Proof.
  intros Hr. unfold new_location.
  destruct (Z.even (Zpos p)) eqn:Ev;
    unfold new_location_even, new_location_odd;
    destruct (Z.eqb_spec r 0) as [->|Hnz]; try reflexivity.
  - destruct (Z.compare_spec (2 * r) (Zpos p)) as [H|H|H]; cbn [loc_ok];
      unfold Qlt, Qeq; cbn [Qnum Qden]; lia.
  - assert (Hodd : 2 * r <> Zpos p).
    { intros E. rewrite <- E, Z.even_mul in Ev. discriminate. }
    destruct (Z.compare_spec (2 * r + 1) (Zpos p)) as [H|H|H]; cbn [loc_ok];
      unfold Qlt, Qeq; cbn [Qnum Qden]; lia.
Qed.

Lemma signed_div (sx sy : bool) (a b : Q) :
  ~ (b == 0)%Q ->
  (signed sx a / signed sy b == signed (xorb sx sy) (a / b))%Q.
Proof. intros Hb. destruct sx, sy; cbn [signed xorb]; field; assumption. Qed.

(** Division by a finite divisor: the exact quotient, rounded once. *)
Lemma SFdiv_spec (x y : float) (K : Z) :
  -1000 <= K <= 900 ->
  finite_or_zero x ->
  (exists sy my ey, y = S754_finite sy my ey) ->
  (Qabs (val x / val y) < pow2 K)%Q ->
  finite_or_zero (SFdiv B64.prec B64.emax x y) /\
  (Qabs (val (SFdiv B64.prec B64.emax x y) - val x / val y) <= pow2 (K - 51))%Q.
Proof.
  intros HK Hx (sy & my & ey & ->) HV.
  destruct x as [sx| | |sx mx ex]; try contradiction.
  - split; [exact I |]. apply zero_error. cbn [SFdiv val].
    unfold Qdiv. ring.
  - set (A := (inject_Z (Zpos mx) * pow2 ex)%Q).
    set (B := (inject_Z (Zpos my) * pow2 ey)%Q).
    assert (HB : (0 < B)%Q).
    { apply Qmult_lt_0_compat; [| apply pow2_pos].
      change 0%Q with (inject_Z 0). rewrite <- Zlt_Qlt. lia. }
    assert (HA : (0 <= A)%Q).
    { apply Qmult_le_0_compat; [| apply Qlt_le_weak, pow2_pos].
      change 0%Q with (inject_Z 0). rewrite <- Zle_Qle. lia. }
    assert (HBn : ~ (B == 0)%Q) by lra.
    assert (Hq : (val (S754_finite sx mx ex) / val (S754_finite sy my ey)
                  == signed (xorb sx sy) (A / B))%Q).
    { rewrite !val_signed. apply signed_div. assumption. }
    assert (HAB : (0 <= A / B)%Q).
    { apply Qle_shift_div_l; [assumption | lra]. }
    rewrite Hq in HV |- *. rewrite (Qabs_signed _ _ HAB) in HV.
    cbn [SFdiv]. unfold SFdiv_core_binary.
    set (d1 := Zdigits2 (Zpos mx)). set (d2 := Zdigits2 (Zpos my)).
    set (e' := Z.min (SpecFloat.fexp B64.prec B64.emax (d1 + ex - (d2 + ey))) (ex - ey)).
    set (s := ex - ey - e').
    assert (Hs : 0 <= s) by (unfold s, e'; lia).
    set (m' := match s with
               | Zpos _ => Z.shiftl (Zpos mx) s
               | Z0 => Zpos mx
               | Zneg _ => 0
               end).
    assert (Hm' : m' = Zpos mx * 2 ^ s).
    { unfold m'. destruct s as [|k|k]; [lia | | lia].
      apply Z.shiftl_mul_pow2. lia. }
    pose proof (Z_div_mod m' (Zpos my) ltac:(lia)) as Hdiv.
    destruct (Z.div_eucl m' (Zpos my)) as [q r]. destruct Hdiv as [Hdm Hr].
    assert (Hq0 : 0 <= q) by nia.
    assert (Hin : inbetween q (new_location (Zpos my) r) (m' # my)).
    { split; [assumption |].
      apply (loc_ok_proper _ (r # my)); [| apply new_location_spec; assumption].
      unfold Qeq, Qminus, Qplus, Qopp, inject_Z. cbn [Qnum Qden]. rewrite Hdm. lia. }
    assert (Hval : ((m' # my) * pow2 e' == A / B)%Q).
    { assert (Hp : (pow2 s * pow2 e' * pow2 ey == pow2 ex)%Q).
      { rewrite <- !pow2_add. unfold s. replace (ex - ey - e' + e' + ey) with ex by lia.
        reflexivity. }
      rewrite (Qmake_Qdiv m' my), Hm', inject_Z_mult, <- pow2_Z by lia.
      unfold A, B. pose proof (pow2_pos ey).
      assert (~ (inject_Z (Zpos my) == 0)%Q).
      { change 0%Q with (inject_Z 0). rewrite inject_Z_injective. lia. }
      field_simplify_eq; [| split; lra].
      rewrite <- Hp. ring. }
    assert (Hd : d1 + ex - (d2 + ey) <= K).
    { assert (H1 : (A < pow2 (K + (d2 + ey)))%Q).
      { setoid_replace A with (A / B * B)%Q using relation Qeq
          by (field; assumption).
        rewrite pow2_add.
        apply Qlt_trans with (pow2 K * B)%Q.
        - apply Qmult_lt_compat_r; assumption.
        - rewrite !(Qmult_comm (pow2 K)).
          apply Qmult_lt_compat_r; [apply pow2_pos |].
          unfold B. rewrite pow2_add.
          apply Qmult_lt_compat_r; [apply pow2_pos |].
          apply (digits_pow2 (Zpos my)). lia. }
      pose proof (bound_exp (Zpos mx) ex _ ltac:(lia) H1). unfold d1. lia. }
    destruct (binary_round_aux_spec (xorb sx sy) q e' K
                (new_location (Zpos my) r) (m' # my))
      as (Hf & q' & Hq' & _ & Herr).
    + assumption.
    + assumption.
    + rewrite Hval. assumption.
    + right. unfold e'. fold (fexp (d1 + ex - (d2 + ey))). rewrite fexp_eq. lia.
    + split; [assumption |]. rewrite Hq'. apply signed_error.
      rewrite <- Hval. assumption.
Qed.

Lemma pow2_Zneg (k : positive) : (pow2 (Zneg k) == 1 # Pos.pow 2 k)%Q.
Proof.
  pose proof (pow2_inv (Zpos k)) as H. change (- Zpos k) with (Zneg k) in H.
  rewrite (pow2_Z (Zpos k)) in H by lia.
  change (2 ^ Zpos k) with (Z.pow_pos 2 k) in H.
  rewrite <- Pos2Z.inj_pow_pos in H.
  set (P := Pos.pow 2 k) in *.
  assert (E : ((1 # P) * inject_Z (Zpos P) == 1)%Q).
  { unfold Qeq, Qmult, inject_Z. cbn [Qnum Qden]. lia. }
  transitivity (pow2 (Zneg k) * ((1 # P) * inject_Z (Zpos P)))%Q.
  - rewrite E. ring.
  - transitivity ((1 # P) * (pow2 (Zneg k) * inject_Z (Zpos P)))%Q; [ring |].
    rewrite H. ring.
Qed.

(** [exact_value] and [val] agree on finite numbers. *)
Lemma exact_value_val (x : float) (q : Q) :
  exact_value x = Some q -> finite_or_zero x /\ (q == val x)%Q.
Proof.
  destruct x as [s| | |s m e]; cbn [exact_value]; try discriminate.
  - intros [= <-]. split; [exact I | reflexivity].
  - intros [= <-]. split; [exact I |].
    assert (Hm : (match e with
                  | Zneg k => Zpos m # Pos.pow 2 k
                  | _ => inject_Z (Zpos m * 2 ^ e)
                  end == inject_Z (Zpos m) * pow2 e)%Q).
    { destruct e as [|k|k].
      - change (pow2 0) with 1%Q. rewrite Z.pow_0_r, Z.mul_1_r. ring.
      - rewrite inject_Z_mult, <- pow2_Z by lia. reflexivity.
      - rewrite pow2_Zneg. unfold Qeq, Qmult, inject_Z. cbn [Qnum Qden]. lia. }
    destruct s; cbn [val]; rewrite Hm; reflexivity.
Qed.

Lemma finite_exact_value (x : float) :
  finite_or_zero x -> exists q, exact_value x = Some q.
Proof.
  destruct x as [s| | |s m e]; cbn [finite_or_zero exact_value]; try contradiction;
    intros _; eexists; reflexivity.
Qed.

Lemma within_val (tolerance : Q) (x y : float) :
  finite_or_zero x -> finite_or_zero y ->
  (Qabs (val x - val y) <= tolerance)%Q -> within tolerance x y.
Proof.
  intros Hx Hy H.
  destruct (finite_exact_value x Hx) as [a Ha].
  destruct (finite_exact_value y Hy) as [b Hb].
  exists a, b. split; [assumption |]. split; [assumption |].
  destruct (exact_value_val _ _ Ha) as [_ ->].
  destruct (exact_value_val _ _ Hb) as [_ ->]. assumption.
Qed.

(** *** Rounding to 2 decimals *)

Lemma hundredths_spec (m : positive) (e : Z) :
  let hundredths :=
    match e with
    | Zneg k => div_half_even (100 * Zpos m) (Z.pow_pos 2 k)
    | _ => 100 * Zpos m * 2 ^ e
    end in
  0 <= hundredths /\
  (Qabs (inject_Z hundredths - 100 * (inject_Z (Zpos m) * pow2 e)) <= 1 # 2)%Q.
Proof.
  destruct e as [|k|k]; cbv zeta.
  - split; [lia |]. change (pow2 0) with 1%Q.
    rewrite Z.pow_0_r, Z.mul_1_r, inject_Z_mult.
    apply Qabs_Qle_condition. split.
    + apply Qle_trans with 0%Q; [discriminate |].
      apply Qle_minus_iff. ring_simplify. discriminate.
    + apply Qle_minus_iff. ring_simplify. discriminate.
  - split; [lia |]. rewrite !inject_Z_mult, <- pow2_Z by lia.
    apply Qabs_Qle_condition. split.
    + apply Qle_minus_iff. ring_simplify. discriminate.
    + apply Qle_minus_iff. ring_simplify. discriminate.
  - rewrite <- Pos2Z.inj_pow_pos. set (P := Pos.pow 2 k).
    pose proof (div_half_even_spec (100 * Zpos m) (Zpos P) ltac:(lia)) as H.
    set (h := div_half_even (100 * Zpos m) (Zpos P)) in *.
    split; [nia |]. rewrite pow2_Zneg. fold P.
    apply Qabs_Qle_condition.
    unfold Qle, Qminus, Qplus, Qopp, Qmult, inject_Z. cbn [Qnum Qden].
    split; nia.
Qed.

Lemma Qabs_lt_iff (x y : Q) : (- y < x /\ x < y -> Qabs x < y)%Q.
Proof. intros [H1 H2]. apply Qabs_Qlt_condition. split; assumption. Qed.

(** [round2 x] is within [2 ^ (K - 50)] of a whole number [n] of
    hundredths, and [n] is a nearest integer to [100 x]. *)
Lemma round2_spec (x : float) (K : Z) :
  0 <= K <= 899 ->
  finite_or_zero x ->
  (Qabs (val x) < pow2 K)%Q ->
  finite_or_zero (B64.round2 x) /\
  exists n : Z,
    (Qabs (inject_Z n - 100 * val x) <= 1 # 2)%Q /\
    (Qabs (val (B64.round2 x) - inject_Z n * (1 # 100)) <= pow2 (K - 50))%Q.
Proof.
  intros HK Hx HV.
  destruct x as [s| | |s m e]; try contradiction.
  - split; [exact I |]. exists 0. cbn [B64.round2 val]. split.
    + apply Qabs_Qle_condition. split; discriminate.
    + apply zero_error. reflexivity.
  - cbn [B64.round2].
    destruct (hundredths_spec m e) as [H0 Herr]. cbv zeta in H0, Herr.
    set (h := match e with
              | Zneg k => div_half_even (100 * Zpos m) (Z.pow_pos 2 k)
              | _ => 100 * Zpos m * 2 ^ e
              end) in *.
    rewrite val_signed in HV.
    set (a := (inject_Z (Zpos m) * pow2 e)%Q) in *.
    assert (Ha : (0 <= a)%Q).
    { apply Qmult_le_0_compat; [| apply Qlt_le_weak, pow2_pos].
      change 0%Q with (inject_Z 0). rewrite <- Zle_Qle. lia. }
    rewrite (Qabs_signed _ _ Ha) in HV.
    assert (Hn : (Qabs (signed s (inject_Z h) - 100 * signed s a) <= 1 # 2)%Q).
    { setoid_replace (100 * signed s a)%Q with (signed s (100 * a))
        using relation Qeq by (destruct s; cbn [signed]; ring).
      apply signed_error. assumption. }
    assert (Hs : (signed s (inject_Z h) == inject_Z (cond_Zopp s h))%Q).
    { destruct s; cbn [signed cond_Zopp]; [rewrite inject_Z_opp |]; reflexivity. }
    rewrite Hs in Hn.
    destruct h as [|p|p]; [| | lia].
    + split; [exact I |]. exists (cond_Zopp s 0).
      split; [rewrite val_signed; assumption |].
      apply zero_error. destruct s; reflexivity.
    + pose proof (pow2_succ K) as HS.
      assert (HK1 : (1 <= pow2 K)%Q).
      { change 1%Q with (pow2 0). apply pow2_le. lia. }
      apply Qabs_Qle_condition in Herr.
      destruct (SFdiv_spec (S754_finite s p 0) (S754_finite false 100 0) (K + 1))
        as [Hf Hd].
      * lia.
      * exact I.
      * eexists _, _, _. reflexivity.
      * rewrite !val_signed, signed_div by discriminate.
        rewrite Qabs_signed.
        -- change (pow2 0) with 1%Q. unfold Qdiv.
           change (/ (inject_Z 100 * 1))%Q with (1 # 100)%Q. lra.
        -- change (pow2 0) with 1%Q. unfold Qdiv.
           change (/ (inject_Z 100 * 1))%Q with (1 # 100)%Q.
           change 0%Q with (inject_Z 0) at 1.
           assert (inject_Z 0 <= inject_Z (Zpos p))%Q by (rewrite <- Zle_Qle; lia).
           change (inject_Z 0) with 0%Q in *. lra.
      * split; [assumption |]. exists (cond_Zopp s (Zpos p)).
        split; [rewrite val_signed; assumption |].
        replace (K + 1 - 51) with (K - 50) in Hd by lia.
        eapply Qle_trans; [| exact Hd]. apply Qle_lteq. right.
        apply Qabs_wd. rewrite <- Hs, !val_signed.
        change (pow2 0) with 1%Q. unfold Qdiv.
        change (signed false (inject_Z 100 * 1)) with (100 * 1)%Q.
        change (/ (100 * 1))%Q with (1 # 100)%Q.
        destruct s; cbn [signed]; ring.
Qed.

(** *** The constants of [convert] *)

Lemma val_of_int_32 : (val (B64.of_int 32) == 32)%Q.
Proof. vm_compute. reflexivity. Qed.

Lemma val_of_int_5 : (val (B64.of_int 5) == 5)%Q.
Proof. vm_compute. reflexivity. Qed.

Lemma val_of_int_9 : (val (B64.of_int 9) == 9)%Q.
Proof. vm_compute. reflexivity. Qed.

(** The double written [273.15] is not 273.15, but close. *)
Lemma val_of_ratio_27315_100 :
  (Qabs (val (B64.of_ratio 27315 100) - (27315 # 100)) <= 1 # 10000000000000)%Q.
Proof. vm_compute. discriminate. Qed.

Lemma constants_finite :
  (exists s m e, B64.of_int 32 = S754_finite s m e) /\
  (exists s m e, B64.of_int 5 = S754_finite s m e) /\
  (exists s m e, B64.of_int 9 = S754_finite s m e) /\
  (exists s m e, B64.of_ratio 27315 100 = S754_finite s m e).
Proof. vm_compute. repeat split; eexists _, _, _; reflexivity. Qed.

Lemma finite_is_finite_or_zero (x : float) :
  (exists s m e, x = S754_finite s m e) -> finite_or_zero x.
Proof. intros (s & m & e & ->). exact I. Qed.

(** *** The four formulas of [convert], with their rounding errors

    Every operation below is applied to numbers of magnitude below
    [2 ^ 34], so each one is off by at most [2 ^ -17]. *)

Ltac qabs_elim :=
  repeat match goal with
  | H : (Qabs _ <= _)%Q |- _ => apply Qabs_Qle_condition in H; destruct H
  end.

Ltac constants :=
  rewrite ?val_of_int_32, ?val_of_int_5, ?val_of_int_9;
  unfold Qdiv;
  change (/ 9)%Q with (1 # 9)%Q; change (/ 5)%Q with (1 # 5)%Q;
  change (pow2 34) with 17179869184%Q;
  change (pow2 (34 - 51)) with (1 # 131072)%Q;
  change (pow2 (34 - 50)) with (1 # 65536)%Q;
  change (pow2 30) with 1073741824%Q.

Ltac constants_in H :=
  rewrite ?val_of_int_32, ?val_of_int_5, ?val_of_int_9 in H;
  unfold Qdiv in H;
  change (/ 9)%Q with (1 # 9)%Q in H; change (/ 5)%Q with (1 # 5)%Q in H;
  change (pow2 34) with 17179869184%Q in H;
  change (pow2 (34 - 51)) with (1 # 131072)%Q in H;
  change (pow2 (34 - 50)) with (1 # 65536)%Q in H;
  change (pow2 30) with 1073741824%Q in H.

Ltac magnitude := apply Qabs_lt_iff; constants; split; lra.

Lemma fahrenheit_to_celsius_error (v : float) :
  finite_or_zero v -> (Qabs (val v) <= pow2 30)%Q ->
  let celsius :=
    SFdiv B64.prec B64.emax
      (B64.mul (B64.sub v (B64.of_int 32)) (B64.of_int 5)) (B64.of_int 9) in
  finite_or_zero celsius /\
  (Qabs (val celsius - (val v - 32) * (5 # 9)) <= 1 # 65536)%Q.
Proof.
  intros Hv Hb. cbv zeta. constants_in Hb. qabs_elim.
  destruct constants_finite as (F32 & F5 & F9 & _).
  destruct (SFsub_spec v (B64.of_int 32) 34) as [Fa Ea];
    [lia | assumption | apply finite_is_finite_or_zero, F32 | magnitude |].
  constants_in Ea. fold (B64.sub v (B64.of_int 32)) in *.
  set (a := B64.sub v (B64.of_int 32)) in *. qabs_elim.
  destruct (SFmul_spec a (B64.of_int 5) 34) as [Fb Eb];
    [lia | assumption | apply finite_is_finite_or_zero, F5 | magnitude |].
  constants_in Eb. fold (B64.mul a (B64.of_int 5)) in *.
  set (b := B64.mul a (B64.of_int 5)) in *. qabs_elim.
  destruct (SFdiv_spec b (B64.of_int 9) 34) as [Fc Ec];
    [lia | assumption | apply F9 | magnitude |].
  constants_in Ec. qabs_elim.
  split; [assumption |]. apply Qabs_Qle_condition. split; lra.
Qed.

Lemma celsius_to_fahrenheit_error (c : float) :
  finite_or_zero c -> (Qabs (val c) <= pow2 30)%Q ->
  let fahrenheit :=
    B64.add (SFdiv B64.prec B64.emax (B64.mul c (B64.of_int 9)) (B64.of_int 5))
      (B64.of_int 32) in
  finite_or_zero fahrenheit /\
  (Qabs (val fahrenheit - (val c * (9 # 5) + 32)) <= 3 # 131072)%Q.
Proof.
  intros Hv Hb. cbv zeta. constants_in Hb. qabs_elim.
  destruct constants_finite as (F32 & F5 & F9 & _).
  destruct (SFmul_spec c (B64.of_int 9) 34) as [Fa Ea];
    [lia | assumption | apply finite_is_finite_or_zero, F9 | magnitude |].
  constants_in Ea. fold (B64.mul c (B64.of_int 9)) in *.
  set (a := B64.mul c (B64.of_int 9)) in *. qabs_elim.
  destruct (SFdiv_spec a (B64.of_int 5) 34) as [Fb Eb];
    [lia | assumption | apply F5 | magnitude |].
  constants_in Eb.
  set (b := SFdiv B64.prec B64.emax a (B64.of_int 5)) in *. qabs_elim.
  destruct (SFadd_spec b (B64.of_int 32) 34) as [Fc Ec];
    [lia | assumption | apply finite_is_finite_or_zero, F32 | magnitude |].
  constants_in Ec. qabs_elim.
  split; [assumption |]. apply Qabs_Qle_condition.
  unfold B64.add. split; lra.
Qed.

Lemma kelvin_to_celsius_error (v : float) :
  finite_or_zero v -> (Qabs (val v) <= pow2 30)%Q ->
  let celsius := B64.sub v (B64.of_ratio 27315 100) in
  finite_or_zero celsius /\
  (Qabs (val celsius - (val v - (27315 # 100))) <= 1 # 65536)%Q.
Proof.
  intros Hv Hb. cbv zeta. constants_in Hb.
  pose proof val_of_ratio_27315_100 as V. qabs_elim.
  destruct constants_finite as (_ & _ & _ & F).
  destruct (SFsub_spec v (B64.of_ratio 27315 100) 34) as [Fa Ea];
    [lia | assumption | apply finite_is_finite_or_zero, F | magnitude |].
  constants_in Ea. qabs_elim.
  split; [assumption |]. apply Qabs_Qle_condition.
  unfold B64.sub. split; lra.
Qed.

Lemma celsius_to_kelvin_error (c : float) :
  finite_or_zero c -> (Qabs (val c) <= pow2 30)%Q ->
  let kelvin := B64.add c (B64.of_ratio 27315 100) in
  finite_or_zero kelvin /\
  (Qabs (val kelvin - (val c + (27315 # 100))) <= 1 # 65536)%Q.
Proof.
  intros Hv Hb. cbv zeta. constants_in Hb.
  pose proof val_of_ratio_27315_100 as V. qabs_elim.
  destruct constants_finite as (_ & _ & _ & F).
  destruct (SFadd_spec c (B64.of_ratio 27315 100) 34) as [Fa Ea];
    [lia | assumption | apply finite_is_finite_or_zero, F | magnitude |].
  constants_in Ea. qabs_elim.
  split; [assumption |]. apply Qabs_Qle_condition.
  unfold B64.add. split; lra.
Qed.

(** Rounding a number close to [ideal] to 2 decimals. *)
Lemma round2_near (y : float) (ideal : Q) :
  finite_or_zero y ->
  (Qabs (val y - ideal) <= 1 # 10000)%Q ->
  (Qabs ideal <= 2 * pow2 30)%Q ->
  finite_or_zero (B64.round2 y) /\
  exists n : Z,
    (Qabs (inject_Z n - 100 * ideal) <= 51 # 100)%Q /\
    (Qabs (val (B64.round2 y) - inject_Z n * (1 # 100)) <= 1 # 65536)%Q.
Proof.
  intros Hy He Hb. constants_in Hb. qabs_elim.
  destruct (round2_spec y 34) as (Hf & n & Hn & Hu);
    [lia | assumption | magnitude |].
  constants_in Hu. split; [assumption |]. exists n. split; [| assumption].
  qabs_elim. apply Qabs_Qle_condition. split; lra.
Qed.

(** *** One conversion

    [convert] returns a double within [2 ^ -16] of a whole number [n] of
    hundredths, and [n] is within 0.51 of 100 times the formula. *)
Lemma convert_error (v : float) (A B : string) :
  valid_scale A -> valid_scale B -> lower A <> lower B ->
  finite_or_zero v -> (Qabs (val v) <= pow2 28)%Q ->
  exists (u : float) (n : Z),
    convert v A B = Ok u /\ finite_or_zero u /\
    (Qabs (val u - inject_Z n * (1 # 100)) <= 1 # 65536)%Q /\
    (Qabs (inject_Z n - 100 * conversion_formula (lower A) (lower B) (val v))
     <= 51 # 100)%Q.
Proof.
  intros HA HB Hne Hv Hb.
  change (pow2 28) with 268435456%Q in Hb.
  assert (Hb30 : (Qabs (val v) <= pow2 30)%Q).
  { eapply Qle_trans; [exact Hb |]. discriminate. }
  apply Qabs_Qle_condition in Hb. destruct Hb as [Hb1 Hb2].
  apply valid_scale_cases in HA, HB.
  destruct HA as [HA|[HA|HA]], HB as [HB|[HB|HB]]; try congruence;
    rewrite HA, HB; cbn [conversion_formula String.eqb Ascii.eqb Bool.eqb].
  - (* celsius to fahrenheit *)
    destruct (celsius_to_fahrenheit_error v Hv Hb30) as [Fy Ey].
    cbv zeta in Fy, Ey.
    destruct (round2_near _ (val v * (9 # 5) + 32)%Q Fy) as (Fu & n & Hn & Hu).
    + eapply Qle_trans; [exact Ey |]. discriminate.
    + constants. apply Qabs_Qle_condition. split; lra.
    + eexists _, n. split; [| split; [exact Fu |]; split; [exact Hu | exact Hn]].
      unfold convert, Converter.convert. rewrite HA, HB. reflexivity.
  - (* celsius to kelvin *)
    destruct (celsius_to_kelvin_error v Hv Hb30) as [Fy Ey].
    cbv zeta in Fy, Ey.
    destruct (round2_near _ (val v + (27315 # 100))%Q Fy) as (Fu & n & Hn & Hu).
    + eapply Qle_trans; [exact Ey |]. discriminate.
    + constants. apply Qabs_Qle_condition. split; lra.
    + eexists _, n. split; [| split; [exact Fu |]; split; [exact Hu | exact Hn]].
      unfold convert, Converter.convert. rewrite HA, HB. reflexivity.
  - (* fahrenheit to celsius *)
    destruct (fahrenheit_to_celsius_error v Hv Hb30) as [Fy Ey].
    cbv zeta in Fy, Ey.
    destruct (round2_near _ ((val v - 32) * (5 # 9))%Q Fy) as (Fu & n & Hn & Hu).
    + eapply Qle_trans; [exact Ey |]. discriminate.
    + constants. apply Qabs_Qle_condition. split; lra.
    + eexists _, n. split; [| split; [exact Fu |]; split; [exact Hu | exact Hn]].
      unfold convert, Converter.convert. rewrite HA, HB. reflexivity.
  - (* fahrenheit to kelvin *)
    destruct (fahrenheit_to_celsius_error v Hv Hb30) as [Fc Ec].
    cbv zeta in Fc, Ec.
    set (c := SFdiv B64.prec B64.emax _ _) in *.
    assert (Hc30 : (Qabs (val c) <= pow2 30)%Q).
    { constants. qabs_elim. apply Qabs_Qle_condition. split; lra. }
    destruct (celsius_to_kelvin_error c Fc Hc30) as [Fy Ey].
    cbv zeta in Fy, Ey. qabs_elim.
    destruct (round2_near _ ((val v - 32) * (5 # 9) + (27315 # 100))%Q Fy)
      as (Fu & n & Hn & Hu).
    + apply Qabs_Qle_condition. split; lra.
    + constants. apply Qabs_Qle_condition. split; lra.
    + eexists _, n. split; [| split; [exact Fu |]; split; [exact Hu | exact Hn]].
      unfold convert, Converter.convert. rewrite HA, HB. reflexivity.
  - (* kelvin to celsius *)
    destruct (kelvin_to_celsius_error v Hv Hb30) as [Fy Ey].
    cbv zeta in Fy, Ey.
    destruct (round2_near _ (val v - (27315 # 100))%Q Fy) as (Fu & n & Hn & Hu).
    + eapply Qle_trans; [exact Ey |]. discriminate.
    + constants. apply Qabs_Qle_condition. split; lra.
    + eexists _, n. split; [| split; [exact Fu |]; split; [exact Hu | exact Hn]].
      unfold convert, Converter.convert. rewrite HA, HB. reflexivity.
  - (* kelvin to fahrenheit *)
    destruct (kelvin_to_celsius_error v Hv Hb30) as [Fc Ec].
    cbv zeta in Fc, Ec.
    set (c := B64.sub v (B64.of_ratio 27315 100)) in *.
    assert (Hc30 : (Qabs (val c) <= pow2 30)%Q).
    { constants. qabs_elim. apply Qabs_Qle_condition. split; lra. }
    destruct (celsius_to_fahrenheit_error c Fc Hc30) as [Fy Ey].
    cbv zeta in Fy, Ey. qabs_elim.
    destruct (round2_near _ ((val v - (27315 # 100)) * (9 # 5) + 32)%Q Fy)
      as (Fu & n & Hn & Hu).
    + apply Qabs_Qle_condition. split; lra.
    + constants. apply Qabs_Qle_condition. split; lra.
    + eexists _, n. split; [| split; [exact Fu |]; split; [exact Hu | exact Hn]].
      unfold convert, Converter.convert. rewrite HA, HB. reflexivity.
Qed.

(** *** There and back *)

Lemma integers_apart (n k : Z) :
  (Qabs (inject_Z n - inject_Z k) < 1)%Q -> n = k.
Proof.
  intros H. apply Qabs_Qlt_condition in H. destruct H as [H1 H2].
  unfold Qlt, Qminus, Qplus, Qopp, inject_Z in *. cbn [Qnum Qden] in *. lia.
Qed.

(** An integer within 0.6 of a multiple of 1/5 is within 0.4 of it. *)
Lemma fifths_apart (n k : Z) :
  (Qabs (inject_Z n - inject_Z k * (1 # 5)) < 3 # 5)%Q ->
  (Qabs (inject_Z n - inject_Z k * (1 # 5)) <= 2 # 5)%Q.
Proof.
  intros H. apply Qabs_Qlt_condition in H. destruct H as [H1 H2].
  apply Qabs_Qle_condition.
  unfold Qlt, Qle, Qminus, Qplus, Qopp, Qmult, inject_Z in *.
  cbn [Qnum Qden] in *. split; lia.
Qed.

Ltac formula_in H A B HA HB :=
  rewrite HA, HB in H;
  cbn [conversion_formula String.eqb Ascii.eqb Bool.eqb] in H.

Ltac tolerance :=
  apply within_val; [assumption | assumption |];
  apply Qabs_Qle_condition; split; lra.

(** C2, amended: for a finite [v] of magnitude at most 10^8, converting
    [v] from a valid scale A to a different valid scale B and back, as
    [convert] computes it on binary64, returns a value within 0.014 of [v],
    and within 0.01 of [v] when A is Celsius or Kelvin. *)
Theorem round_trip_within_tolerance (v : float) (x : Q) (A B : string) :
  exact_value v = Some x -> (Qabs x <= 100000000)%Q ->
  valid_scale A -> valid_scale B -> lower A <> lower B ->
  exists u w : float,
    convert v A B = Ok u /\ convert u B A = Ok w /\
    within (14 # 1000) w v /\
    (lower A <> "fahrenheit"%string -> within (1 # 100) w v).
Proof.
  intros Hx Hb HA HB Hne.
  destruct (exact_value_val v x Hx) as [Fv Ex]. rewrite Ex in Hb. clear Ex Hx.
  assert (Hb28 : (Qabs (val v) <= pow2 28)%Q).
  { eapply Qle_trans; [exact Hb |]. discriminate. }
  destruct (convert_error v A B HA HB Hne Fv Hb28)
    as (u & n1 & Hu & Fu & Eu & En1).
  assert (Hne' : lower B <> lower A) by congruence.
  pose proof (convert_error u B A HB HA Hne' Fu) as Hback.
  exists u.
  pose proof (valid_scale_cases A HA) as CA.
  pose proof (valid_scale_cases B HB) as CB.
  clear Hb28.
  destruct CA as [CA|[CA|CA]], CB as [CB|[CB|CB]]; try congruence;
    formula_in En1 A B CA CB; qabs_elim;
    (destruct Hback as (w & n2 & Hw & Fw & Ew & En2);
     [change (pow2 28) with 268435456%Q; apply Qabs_Qle_condition; split; lra |]);
    formula_in En2 B A CB CA; qabs_elim;
    exists w; (split; [assumption |]); (split; [assumption |]).
  - (* celsius, fahrenheit, celsius *)
    split; [| intros _]; tolerance.
  - (* celsius, kelvin, celsius *)
    assert (E : n2 = n1 - 27315).
    { apply integers_apart. unfold Z.sub. rewrite inject_Z_plus.
      change (inject_Z (Z.opp 27315)) with (- 27315)%Q.
      apply Qabs_lt_iff. split; lra. }
    rewrite E in *. unfold Z.sub in *. rewrite inject_Z_plus in *.
    change (inject_Z (Z.opp 27315)) with (- 27315)%Q in *.
    split; [| intros _]; tolerance.
  - (* fahrenheit, celsius, fahrenheit *)
    assert (E : (Qabs (inject_Z n2 - inject_Z (9 * n1 + 16000) * (1 # 5))
                 <= 2 # 5)%Q).
    { apply fifths_apart. rewrite inject_Z_plus, inject_Z_mult.
      change (inject_Z 9) with 9%Q. change (inject_Z 16000) with 16000%Q.
      apply Qabs_lt_iff. split; lra. }
    rewrite inject_Z_plus, inject_Z_mult in E.
    change (inject_Z 9) with 9%Q in E. change (inject_Z 16000) with 16000%Q in E.
    qabs_elim.
    split; [tolerance | intros Hc; congruence].
  - (* fahrenheit, kelvin, fahrenheit *)
    assert (E : (Qabs (inject_Z n2
                       - inject_Z (9 * n1 + - 229835) * (1 # 5)) <= 2 # 5)%Q).
    { apply fifths_apart. rewrite inject_Z_plus, inject_Z_mult.
      change (inject_Z 9) with 9%Q.
      change (inject_Z (- 229835)) with (- 229835)%Q.
      apply Qabs_lt_iff. split; lra. }
    rewrite inject_Z_plus, inject_Z_mult in E.
    change (inject_Z 9) with 9%Q in E.
    change (inject_Z (- 229835)) with (- 229835)%Q in E.
    qabs_elim.
    split; [tolerance | intros Hc; congruence].
  - (* kelvin, celsius, kelvin *)
    assert (E : n2 = n1 + 27315).
    { apply integers_apart. rewrite inject_Z_plus.
      change (inject_Z 27315) with 27315%Q.
      apply Qabs_lt_iff. split; lra. }
    rewrite E in *. rewrite inject_Z_plus in *.
    change (inject_Z 27315) with 27315%Q in *.
    split; [| intros _]; tolerance.
  - (* kelvin, fahrenheit, kelvin *)
    split; [| intros _]; tolerance.
Qed.

Lemma round_trip_within_tolerance_witness :
  exists u w : float,
    convert (B64.of_ratio 320629 10000) "fahrenheit" "celsius" = Ok u /\
    convert u "celsius" "fahrenheit" = Ok w /\
    within (14 # 1000) w (B64.of_ratio 320629 10000) /\
    (lower "fahrenheit" <> "fahrenheit"%string ->
     within (1 # 100) w (B64.of_ratio 320629 10000)).
Proof.
  eapply (round_trip_within_tolerance (B64.of_ratio 320629 10000)).
  - vm_compute. reflexivity.
  - vm_compute. discriminate.
  - unfold valid_scale. simpl. auto.
  - unfold valid_scale. simpl. auto.
  - simpl. discriminate.
Defined.

(** The tolerance cannot be 0.013 on binary64: 32.243 F converts to
    273.28 K, which converts back to 32.23 F, and the doubles written
    32.23 and 32.243 are more than 0.013 apart. *)
Example round_trip_fahrenheit_kelvin :
  convert (B64.of_ratio 32243 1000) "fahrenheit" "kelvin"
    = Ok (B64.of_ratio 27328 100) /\
  convert (B64.of_ratio 27328 100) "kelvin" "fahrenheit"
    = Ok (B64.of_ratio 3223 100) /\
  ~ within (13 # 1000) (B64.of_ratio 3223 100) (B64.of_ratio 32243 1000).
Proof.
  split; [vm_compute; reflexivity |]. split; [vm_compute; reflexivity |].
  intros (a & b & Ha & Hb & Hab).
  vm_compute in Ha. injection Ha as <-.
  vm_compute in Hb. injection Hb as <-.
  vm_compute in Hab. apply Hab. reflexivity.
Qed.

(** The bound on the magnitude is needed: doubles near 10^15 are 0.125
    apart, and at 1000000000000003 C the round trip through Fahrenheit comes
    back 0.125 too high. *)
Example round_trip_large_magnitude :
  convert (B64.of_int 1000000000000003) "celsius" "fahrenheit"
    = Ok (B64.of_ratio 18000000000000375 10) /\
  convert (B64.of_ratio 18000000000000375 10) "fahrenheit" "celsius"
    = Ok (B64.of_ratio 1000000000000003125 1000) /\
  exact_value (B64.of_ratio 1000000000000003125 1000)
    = Some (8000000000000025 # 8).
Proof. vm_compute. repeat split; reflexivity. Qed.

(** * Further properties *)

(** ** record.py: threshold checks *)

Lemma is_above_threshold_iff (self : TemperatureRecord) (threshold : float) :
  is_above_threshold self threshold = true
  <-> Forall (fun temp => flt threshold temp) (readings self).
Proof.
  unfold is_above_threshold, flt. rewrite forallb_forall.
  symmetry. apply List.Forall_forall.
Qed.

Lemma is_at_or_above_threshold_iff (self : TemperatureRecord)
  (threshold : float) :
  is_at_or_above_threshold self threshold = true
  <-> Forall (fun temp => fle threshold temp) (readings self).
Proof.
  unfold is_at_or_above_threshold, fle. rewrite forallb_forall.
  symmetry. apply List.Forall_forall.
Qed.

(** X1: a record that is above a threshold is also at or above it, and a
    record that is at or above a threshold is above every strictly smaller
    one; both checks survive lowering the threshold. *)
Theorem threshold_checks_are_ordered
  (self : TemperatureRecord) (low high : float) :
  (is_above_threshold self high = true ->
   is_at_or_above_threshold self high = true) /\
  (flt low high -> is_at_or_above_threshold self high = true ->
   is_above_threshold self low = true) /\
  (fle low high -> is_above_threshold self high = true ->
   is_above_threshold self low = true) /\
  (fle low high -> is_at_or_above_threshold self high = true ->
   is_at_or_above_threshold self low = true).
Proof.
  rewrite !is_above_threshold_iff, !is_at_or_above_threshold_iff.
  repeat split; intros; repeat match goal with
    | H : Forall _ (readings self) |- _ =>
        eapply List.Forall_impl; [| exact H]; clear H; cbv beta; intros temp Ht
    end.
  - apply flt_fle. assumption.
  - eapply flt_fle_trans; eassumption.
  - eapply fle_flt_trans; eassumption.
  - eapply fle_trans; eassumption.
Qed.

Lemma threshold_checks_are_ordered_witness :
  is_above_threshold (init "d" [B64.of_ratio 251 10; B64.of_ratio 255 10] "celsius")
    (B64.of_ratio 249 10) = true.
Proof.
  apply (threshold_checks_are_ordered
           (init "d" [B64.of_ratio 251 10; B64.of_ratio 255 10] "celsius")
           (B64.of_ratio 249 10) (B64.of_int 25)).
  - vm_compute. reflexivity.
  - vm_compute. reflexivity.
Defined.

(** X2: a reading that is a nan fails both threshold checks, and so does a
    threshold that is a nan as soon as the record has a reading. *)
Theorem threshold_checks_fail_on_nan
  (self : TemperatureRecord) (threshold : float) :
  (Exists (fun temp => B64.is_nan temp = true) (readings self) \/
   (B64.is_nan threshold = true /\ readings self <> [])) ->
  is_above_threshold self threshold = false /\
  is_at_or_above_threshold self threshold = false.
Proof.
  intros H.
  assert (Hbad : exists temp, In temp (readings self) /\
                   (B64.is_nan temp = true \/ B64.is_nan threshold = true)).
  { destruct H as [H|[Ht Hne]].
    - apply List.Exists_exists in H. destruct H as (temp & Hin & Hnan). eauto.
    - destruct (readings self) as [|temp rest]; [congruence |].
      exists temp. split; [left; reflexivity | auto]. }
  destruct Hbad as (temp & Hin & Hnan).
  split.
  - destruct (is_above_threshold self threshold) eqn:E; [| reflexivity].
    apply is_above_threshold_iff in E. rewrite List.Forall_forall in E.
    apply E in Hin. apply flt_not_nan in Hin. unfold not_nan in Hin.
    destruct Hin, Hnan; congruence.
  - destruct (is_at_or_above_threshold self threshold) eqn:E; [| reflexivity].
    apply is_at_or_above_threshold_iff in E. rewrite List.Forall_forall in E.
    apply E in Hin. apply fle_not_nan in Hin. unfold not_nan in Hin.
    destruct Hin, Hnan; congruence.
Qed.

Lemma threshold_checks_fail_on_nan_witness :
  is_above_threshold (init "d" [B64.of_int 30; B64.nan] "celsius")
    (B64.of_int 0) = false /\
  is_at_or_above_threshold (init "d" [B64.of_int 30; B64.nan] "celsius")
    (B64.of_int 0) = false.
Proof.
  apply (threshold_checks_fail_on_nan
           (init "d" [B64.of_int 30; B64.nan] "celsius") (B64.of_int 0)).
  left. simpl. apply Exists_cons_tl. apply Exists_cons_hd. reflexivity.
Defined.

(** ** analytics.py: extreme days, further *)

(** X3: every listed record with at least one reading that passes
    [is_above_threshold] has its date reported by [detect_extreme_days]; a
    record without readings passes the check vacuously and is never what
    puts a date on the list. *)
Theorem above_threshold_days_are_extreme
  (records : list TemperatureRecord) (record : TemperatureRecord)
  (threshold : float) :
  (In record records -> readings record <> [] ->
   is_above_threshold record threshold = true ->
   In (date record) (detect_extreme_days records threshold)) /\
  (readings record = [] ->
   is_above_threshold record threshold = true /\
   detect_extreme_days [record] threshold = []).
Proof.
  split.
  - intros Hin Hne Habove. unfold detect_extreme_days.
    apply in_map. apply filter_In. split; [assumption |].
    apply any_above_iff. apply is_above_threshold_iff in Habove.
    destruct (readings record) as [|temp rest] eqn:E; [congruence |].
    exists temp. rewrite E. split; [left; reflexivity |].
    inversion Habove; assumption.
  - intros Hempty. unfold is_above_threshold, detect_extreme_days.
    simpl. rewrite Hempty. split; reflexivity.
Qed.

Lemma above_threshold_days_are_extreme_witness :
  In "d2"%string
    (detect_extreme_days
       [init "d1" [B64.of_int 10] "celsius";
        init "d2" [B64.of_int 18; B64.of_int 19] "celsius"] (B64.of_int 17)).
Proof.
  apply (above_threshold_days_are_extreme
           [init "d1" [B64.of_int 10] "celsius";
            init "d2" [B64.of_int 18; B64.of_int 19] "celsius"]
           (init "d2" [B64.of_int 18; B64.of_int 19] "celsius")
           (B64.of_int 17)).
  - simpl. right. left. reflexivity.
  - simpl. discriminate.
  - vm_compute. reflexivity.
Defined.

(** X4: the dates [detect_extreme_days] reports are a sub-sequence of the
    dates of the records, and raising the threshold can only remove dates:
    the result for a higher threshold is a sub-sequence of the result for a
    lower one. *)
Theorem detect_extreme_days_shrinks_with_threshold
  (records : list TemperatureRecord) (low high : float) :
  sublist (detect_extreme_days records low) (map date records) /\
  (fle low high ->
   sublist (detect_extreme_days records high)
     (detect_extreme_days records low)).
Proof.
  unfold detect_extreme_days. split.
  - induction records as [|r rs IH]; simpl; [constructor |].
    destruct (existsb (fun temp => B64.ltb low temp) (readings r)); simpl;
      [apply sublist_skip | apply sublist_cons]; assumption.
  - intros Hle. induction records as [|r rs IH]; simpl; [constructor |].
    destruct (existsb (fun temp => B64.ltb high temp) (readings r)) eqn:Eh.
    + assert (El : existsb (fun temp => B64.ltb low temp) (readings r) = true).
      { apply existsb_exists in Eh. destruct Eh as (temp & Hin & Hlt).
        apply existsb_exists. exists temp. split; [assumption |].
        exact (fle_flt_trans _ _ _ Hle Hlt). }
      rewrite El. simpl. apply sublist_skip. assumption.
    + destruct (existsb (fun temp => B64.ltb low temp) (readings r)); simpl;
        [apply sublist_cons |]; assumption.
Qed.

Lemma detect_extreme_days_shrinks_with_threshold_witness :
  sublist
    (detect_extreme_days
       [init "d1" [B64.of_int 25] "celsius";
        init "d2" [B64.of_ratio 251 10] "celsius"] (B64.of_int 25))
    (detect_extreme_days
       [init "d1" [B64.of_int 25] "celsius";
        init "d2" [B64.of_ratio 251 10] "celsius"] (B64.of_ratio 249 10)).
Proof.
  apply (detect_extreme_days_shrinks_with_threshold
           [init "d1" [B64.of_int 25] "celsius";
            init "d2" [B64.of_ratio 251 10] "celsius"]
           (B64.of_ratio 249 10) (B64.of_int 25)).
  vm_compute. reflexivity.
Defined.

(** ** analytics.py: trends *)

Lemma trend_loop_spec (temps : list float) (indices : list nat)
  (trend : list string) :
  Forall (fun i => (1 <= i < length temps)%nat) indices ->
  trend_loop temps indices trend =
    Ok (trend ++
        map (fun i => direction (nth (i - 1) temps B64.nan)
                        (nth i temps B64.nan)) indices).
Proof.
  revert trend. induction indices as [|i rest IH]; intros trend Hall;
    cbn [trend_loop map].
  - rewrite app_nil_r. reflexivity.
  - inversion Hall as [|i' rest' Hi Hrest]; subst.
    destruct (py_index_in_range temps i) as (cur & Ecur & ->); [lia |].
    destruct (py_index_in_range temps (i - 1)) as (prev & Eprev & ->); [lia |].
    cbn [bind].
    rewrite (nth_error_nth temps i B64.nan Ecur).
    rewrite (nth_error_nth temps (i - 1) B64.nan Eprev).
    unfold direction.
    destruct (B64.ltb prev cur); [| destruct (B64.ltb cur prev)];
      rewrite (IH _ Hrest), <- app_assoc; reflexivity.
Qed.

Lemma temperature_trend_spec (temps : list float) :
  exists trend,
    temperature_trend temps = Ok trend /\
    length trend = (length temps - 1)%nat /\
    (forall i prev cur,
       nth_error temps i = Some prev -> nth_error temps (S i) = Some cur ->
       nth_error trend i = Some (direction prev cur)).
Proof.
  unfold temperature_trend, len.
  destruct (Z.ltb_spec (Z.of_nat (length temps)) 2) as [Hshort|Hlong].
  - exists []. split; [reflexivity |]. split; [simpl; lia |].
    intros i prev cur _ Hc.
    assert (S i < length temps)%nat by (apply nth_error_Some; congruence).
    lia.
  - eexists. split.
    + rewrite trend_loop_spec; [reflexivity |].
      apply List.Forall_forall. intros i Hi. apply range_from_1_In in Hi. lia.
    + cbn [app]. unfold range_from_1. split.
      * rewrite length_map, length_seq. reflexivity.
      * intros i prev cur Hp Hc.
        assert (S i < length temps)%nat by (apply nth_error_Some; congruence).
        rewrite nth_error_map, nth_error_seq.
        destruct (Nat.ltb_spec i (length temps - 1)); [| lia].
        cbn [option_map]. replace (1 + i - 1)%nat with i by lia.
        rewrite (nth_error_nth temps i B64.nan Hp).
        rewrite (nth_error_nth temps (1 + i) B64.nan Hc). reflexivity.
Qed.

(** X5: [temperature_trend] always returns; the result has one entry fewer
    than the readings (none for fewer than 2 readings), and its entry at
    position [i] labels the pair of readings at positions [i] and [i + 1]:
    "up" when the later one is greater, "down" when it is smaller, "same"
    otherwise. *)
Theorem temperature_trend_labels_adjacent_pairs (temps : list float) :
  exists trend,
    temperature_trend temps = Ok trend /\
    length trend = (length temps - 1)%nat /\
    (forall i prev cur,
       nth_error temps i = Some prev -> nth_error temps (S i) = Some cur ->
       nth_error trend i = Some (direction prev cur) /\
       (flt prev cur -> nth_error trend i = Some "up"%string) /\
       (flt cur prev -> nth_error trend i = Some "down"%string)).
Proof.
  destruct (temperature_trend_spec temps) as (trend & Ht & Hlen & Hnth).
  exists trend. split; [assumption |]. split; [assumption |].
  intros i prev cur Hp Hc. specialize (Hnth i prev cur Hp Hc).
  split; [assumption |]. unfold direction in Hnth. split; intros Hlt.
  - unfold flt in Hlt. rewrite Hlt in Hnth. assumption.
  - assert (Hn : B64.ltb prev cur = false).
    { destruct (B64.ltb prev cur) eqn:E; [| reflexivity].
      pose proof (flt_fle_trans _ _ _ Hlt (flt_fle _ _ E)) as Hc'.
      unfold flt in Hc'. rewrite ltb_irrefl in Hc'. discriminate. }
    unfold flt in Hlt. rewrite Hn, Hlt in Hnth. assumption.
Qed.

Lemma temperature_trend_labels_adjacent_pairs_witness :
  exists trend,
    temperature_trend [B64.of_int 10; B64.of_int 12; B64.of_int 12; B64.of_int 8]
      = Ok trend /\
    nth_error trend 2 = Some "down"%string.
Proof.
  destruct (temperature_trend_labels_adjacent_pairs
              [B64.of_int 10; B64.of_int 12; B64.of_int 12; B64.of_int 8])
    as (trend & Ht & _ & Hnth).
  exists trend. split; [exact Ht |].
  apply (Hnth 2%nat (B64.of_int 12) (B64.of_int 8)).
  - reflexivity.
  - reflexivity.
  - vm_compute. reflexivity.
Defined.

(** ** analytics.py: spikes, further *)

Lemma abs_binary_round_aux (s s' : bool) (m e : Z) (l : location) :
  SFabs (binary_round_aux B64.prec B64.emax s m e l) =
  SFabs (binary_round_aux B64.prec B64.emax s' m e l).
Proof.
  unfold binary_round_aux.
  destruct (shr_fexp B64.prec B64.emax m e l) as [mrs e1].
  destruct (shr_fexp B64.prec B64.emax _ e1 loc_Exact) as [mrs' e2].
  destruct (shr_m mrs'); [reflexivity | | reflexivity].
  destruct (e2 <=? B64.emax - B64.prec); reflexivity.
Qed.

Lemma abs_binary_normalize_opp (z e : Z) :
  SFabs (binary_normalize B64.prec B64.emax (- z) e false) =
  SFabs (binary_normalize B64.prec B64.emax z e false).
Proof.
  destruct z as [|p|p]; unfold binary_normalize, Z.opp; [reflexivity | |];
    unfold binary_round;
    destruct (shl_align p e _) as [mz ez]; apply abs_binary_round_aux.
Qed.

(** The size of a difference does not depend on its direction. *)
Lemma abs_sub_comm (x y : float) :
  B64.abs (B64.sub x y) = B64.abs (B64.sub y x).
Proof.
  unfold B64.abs, B64.sub.
  destruct x as [sx|sx| |sx mx ex], y as [sy|sy| |sy my ey];
    try (destruct sx, sy; reflexivity); try (destruct sx; reflexivity);
    try (destruct sy; reflexivity); try reflexivity.
  cbn [SFsub]. rewrite (Z.min_comm ey ex).
  set (ez := Z.min ex ey).
  set (cx := cond_Zopp sx (Z.pos (shl_align mx ex ez).1)).
  set (cy := cond_Zopp sy (Z.pos (shl_align my ey ez).1)).
  replace (cy - cx) with (- (cx - cy)) by lia.
  symmetry. apply abs_binary_normalize_opp.
Qed.

(** Two readings of which neither is below the other are no distance
    apart: their difference is a zero, or a nan. *)
Lemma unordered_pair_has_no_gap (prev cur : float) :
  B64.ltb prev cur = false -> B64.ltb cur prev = false ->
  B64.abs (B64.sub cur prev) = B64.zero \/
  B64.abs (B64.sub cur prev) = B64.nan.
Proof.
  unfold B64.ltb, SFltb, B64.abs, B64.sub.
  destruct prev as [sp|sp| |sp mp ep], cur as [sc|sc| |sc mc ec];
    try (destruct sp, sc; cbn; intros H1 H2; try discriminate; auto; fail);
    try (destruct sp; cbn; intros H1 H2; try discriminate; auto; fail);
    try (destruct sc; cbn; intros H1 H2; try discriminate; auto; fail);
    try (cbn; auto; fail).
  cbn [SFcompare].
  destruct sp, sc; try discriminate;
    destruct (Z.compare_spec ep ec), (Z.compare_spec ec ep); try lia;
    try discriminate; subst;
    change (Pos.compare_cont Eq mp mc) with (Pos.compare mp mc);
    change (Pos.compare_cont Eq mc mp) with (Pos.compare mc mp);
    destruct (Pos.compare_spec mp mc), (Pos.compare_spec mc mp); try lia;
    cbn; try discriminate; subst; intros _ _; left;
    cbn [SFsub]; rewrite Z.min_id; unfold shl_align;
    rewrite Z.sub_diag; cbn [fst]; rewrite ?Z.sub_diag; reflexivity.
Qed.

(** X6: when every label of the trend is "same", no spike is detected for
    any threshold above zero: readings that never move have no jump. *)
Theorem flat_trend_has_no_spike
  (temps : list float) (threshold : float) (trend : list string) :
  flt B64.zero threshold ->
  temperature_trend temps = Ok trend ->
  Forall (fun label => label = "same"%string) trend ->
  detect_spike temps (Some threshold) = Ok false.
Proof.
  intros Hpos Htrend Hsame.
  destruct (detect_spike_some temps threshold) as (b & Hb & Hiff).
  destruct b; [exfalso | exact Hb].
  destruct (proj1 Hiff eq_refl) as (i & prev & cur & Hp & Hc & Hle).
  destruct (temperature_trend_spec temps) as (trend' & Ht' & _ & Hnth).
  assert (trend' = trend) by congruence. subst trend'.
  specialize (Hnth i prev cur Hp Hc).
  apply nth_error_In in Hnth.
  rewrite List.Forall_forall in Hsame. apply Hsame in Hnth.
  unfold direction in Hnth.
  destruct (B64.ltb prev cur) eqn:E1; [discriminate |].
  destruct (B64.ltb cur prev) eqn:E2; [discriminate |].
  destruct (unordered_pair_has_no_gap prev cur E1 E2) as [Hz|Hn];
    rewrite ?Hz, ?Hn in Hle.
  - apply flt_not_fle in Hpos. unfold fle in Hle. congruence.
  - apply fle_not_nan in Hle. destruct Hle as [_ Hle]. discriminate.
Qed.

Lemma flat_trend_has_no_spike_witness :
  detect_spike [B64.of_int 15; B64.of_int 15; B64.of_int 15]
    (Some (B64.of_ratio 1 100)) = Ok false.
Proof.
  apply (flat_trend_has_no_spike
           [B64.of_int 15; B64.of_int 15; B64.of_int 15]
           (B64.of_ratio 1 100) ["same"; "same"]%string).
  - vm_compute. reflexivity.
  - vm_compute. reflexivity.
  - repeat constructor.
Defined.

Lemma adjacent_jump_antitone (temps : list float) (low high : float) :
  fle low high -> adjacent_jump temps high -> adjacent_jump temps low.
Proof.
  intros Hle (i & prev & cur & Hp & Hc & Hjump).
  exists i, prev, cur. split; [assumption |]. split; [assumption |].
  eapply fle_trans; eassumption.
Qed.

Lemma adjacent_jump_rev (temps : list float) (threshold : float) :
  adjacent_jump temps threshold -> adjacent_jump (rev temps) threshold.
Proof.
  intros (i & prev & cur & Hp & Hc & Hjump).
  assert (Hi : (S i < length temps)%nat) by (apply nth_error_Some; congruence).
  exists (length temps - S (S i))%nat, cur, prev.
  rewrite !nth_error_rev.
  destruct (Nat.ltb_spec (length temps - S (S i)) (length temps)); [| lia].
  destruct (Nat.ltb_spec (S (length temps - S (S i))) (length temps)); [| lia].
  replace (length temps - S (length temps - S (S i)))%nat with (S i) by lia.
  replace (length temps - S (S (length temps - S (S i))))%nat with i by lia.
  split; [assumption |]. split; [assumption |].
  rewrite abs_sub_comm. assumption.
Qed.

(** X7: a spike found at some threshold is found at every lower threshold;
    in particular a spike at a threshold of at least 5 is found by the
    default call. *)
Theorem detect_spike_survives_lower_threshold
  (temps : list float) (low high : float) :
  fle low high ->
  detect_spike temps (Some high) = Ok true ->
  detect_spike temps (Some low) = Ok true /\
  (low = B64.of_int 5 -> detect_spike temps None = Ok true).
Proof.
  intros Hle Hhigh.
  assert (Hlow : detect_spike temps (Some low) = Ok true).
  { destruct (detect_spike_some temps high) as (b & Hb & Hiff).
    assert (b = true) by congruence. subst b.
    destruct (detect_spike_some temps low) as (b' & Hb' & Hiff').
    rewrite Hb'. f_equal. apply Hiff'.
    apply (adjacent_jump_antitone temps low high Hle). apply Hiff. reflexivity. }
  split; [assumption |]. intros ->. exact Hlow.
Qed.

Lemma detect_spike_survives_lower_threshold_witness :
  detect_spike [B64.of_int 10; B64.of_int (-10)] None = Ok true.
Proof.
  apply (detect_spike_survives_lower_threshold
           [B64.of_int 10; B64.of_int (-10)] (B64.of_int 5) (B64.of_int 15)).
  - vm_compute. reflexivity.
  - vm_compute. reflexivity.
  - reflexivity.
Defined.

(** X8: spike detection does not depend on the direction in which the
    readings are traversed: the reversed list gives the same answer. *)
Theorem detect_spike_of_reversed_readings
  (temps : list float) (threshold : option float) :
  detect_spike (rev temps) threshold = detect_spike temps threshold.
Proof.
  assert (H : forall th,
            detect_spike (rev temps) (Some th) = detect_spike temps (Some th)).
  { intros th.
    destruct (detect_spike_some temps th) as (b & Hb & Hiff).
    destruct (detect_spike_some (rev temps) th) as (b' & Hb' & Hiff').
    rewrite Hb, Hb'. f_equal.
    destruct b, b'; try reflexivity.
    - apply (proj2 Hiff'). apply adjacent_jump_rev.
      apply (proj1 Hiff). reflexivity.
    - symmetry. apply (proj2 Hiff). rewrite <- (rev_involutive temps).
      apply adjacent_jump_rev. apply (proj1 Hiff'). reflexivity. }
  destruct threshold as [th|]; [apply H |].
  exact (H (B64.of_int 5)).
Qed.

(** ** analytics.py: trends, further *)

Lemma direction_swap (prev cur : float) :
  direction cur prev = opposite (direction prev cur).
Proof.
  unfold direction.
  destruct (B64.ltb prev cur) eqn:E1.
  - assert (E2 : B64.ltb cur prev = false).
    { destruct (B64.ltb cur prev) eqn:E; [| reflexivity].
      pose proof (flt_fle_trans _ _ _ E (flt_fle _ _ E1)) as Hc.
      unfold flt in Hc. rewrite ltb_irrefl in Hc. discriminate. }
    rewrite E2. reflexivity.
  - destruct (B64.ltb cur prev); reflexivity.
Qed.

(** X9: reversing the readings reverses the trend and swaps "up" with
    "down". *)
Theorem temperature_trend_of_reversed_readings (temps : list float) :
  exists trend,
    temperature_trend temps = Ok trend /\
    temperature_trend (rev temps) = Ok (rev (map opposite trend)).
Proof.
  destruct (temperature_trend_spec temps) as (trend & Ht & Hlen & Hnth).
  destruct (temperature_trend_spec (rev temps)) as (back & Hb & Hlenb & Hnthb).
  exists trend. split; [assumption |]. rewrite Hb. f_equal.
  rewrite length_rev in Hlenb.
  apply nth_error_ext. intros j.
  destruct (Nat.lt_ge_cases j (length temps - 1)) as [Hj|Hj].
  - destruct (nth_error (rev temps) j) as [a|] eqn:Ea;
      [| apply nth_error_None in Ea; rewrite length_rev in Ea; lia].
    destruct (nth_error (rev temps) (S j)) as [b|] eqn:Eb;
      [| apply nth_error_None in Eb; rewrite length_rev in Eb; lia].
    rewrite (Hnthb j a b Ea Eb).
    rewrite nth_error_rev in Ea, Eb.
    destruct (Nat.ltb_spec j (length temps)); [| lia].
    destruct (Nat.ltb_spec (S j) (length temps)); [| lia].
    replace (length temps - S j)%nat
      with (S (length temps - S (S j))) in Ea by lia.
    rewrite nth_error_rev, length_map, Hlen.
    destruct (Nat.ltb_spec j (length temps - 1)); [| lia].
    replace (length temps - 1 - S j)%nat
      with (length temps - S (S j))%nat by lia.
    rewrite nth_error_map, (Hnth _ b a Eb Ea). cbn [option_map].
    rewrite direction_swap. reflexivity.
  - transitivity (@None string).
    + apply nth_error_None. lia.
    + symmetry. apply nth_error_None. rewrite length_rev, length_map. lia.
Qed.

(** ** record.py: [convert_to], further *)

Lemma convert_raises_for_invalid (v : float) (o t : string) :
  ~ valid_scale o \/ ~ valid_scale t -> exists e, convert v o t = Raise e.
Proof.
  intros H. destruct (valid_scale_dec o) as [Ho|Ho].
  - destruct H as [H|H]; [contradiction |].
    eexists. apply convert_invalid_target; assumption.
  - eexists. apply convert_invalid_original; assumption.
Qed.

Lemma convert_raise_invalid (v : float) (o t : string) (e : exn) :
  convert v o t = Raise e -> ~ valid_scale o \/ ~ valid_scale t.
Proof.
  intros H.
  destruct (valid_scale_dec o) as [Ho|Ho]; [| left; assumption].
  destruct (valid_scale_dec t) as [Ht|Ht]; [| right; assumption].
  destruct (convert_valid_returns v o t Ho Ht) as [w Hw]. congruence.
Qed.

(** X10: [convert_to] raises exactly when the lower-cased target differs
    from the stored scale, the record has at least one reading, and the
    stored scale or the target is not a valid scale.  A record without
    readings therefore accepts any target, valid or not, and stores its
    lower-case form as the new scale. *)
Theorem convert_to_raises_iff (target : string) (self : TemperatureRecord) :
  ((exists e, (convert_to target self).1 = Raise e) <->
   (lower target <> scale self /\ readings self <> [] /\
    (~ valid_scale (scale self) \/ ~ valid_scale target))) /\
  (readings self = [] ->
   convert_to target self =
     (Ok tt, {| date := date self; readings := []; scale := lower target |})).
Proof.
  split.
  - split.
    + intros [e He].
      destruct (String.eqb_spec (lower target) (scale self)) as [Heq|Hne].
      { rewrite convert_to_same_scale in He by assumption. discriminate. }
      split; [assumption |].
      rewrite convert_to_other_scale in He by assumption.
      destruct (comprehension _ (readings self)) as [c|e'] eqn:Ec;
        [discriminate |].
      apply comprehension_raise in Ec. destruct Ec as (x & Hin & Hx).
      split; [intros Hnil; rewrite Hnil in Hin; destruct Hin |].
      apply convert_raise_invalid in Hx.
      rewrite valid_scale_lower in Hx. assumption.
    + intros (Hne & Hreadings & Hinvalid).
      rewrite convert_to_other_scale by assumption.
      destruct (readings self) as [|x rest]; [congruence |].
      destruct (convert_raises_for_invalid x (scale self) (lower target))
        as [e He]; [rewrite valid_scale_lower; assumption |].
      cbn [comprehension]. rewrite He. cbn [bind]. exists e. reflexivity.
  - intros Hnil.
    destruct (String.eqb_spec (lower target) (scale self)) as [Heq|Hne].
    + rewrite convert_to_same_scale by assumption.
      destruct self as [d rs s]. cbn in *. subst. reflexivity.
    + rewrite convert_to_other_scale by assumption. rewrite Hnil. reflexivity.
Qed.

Lemma convert_to_raises_iff_witness :
  convert_to "Rankine" (init "d" [] "celsius") =
    (Ok tt, {| date := "d"; readings := []; scale := "rankine" |}).
Proof.
  apply (convert_to_raises_iff "Rankine" (init "d" [] "celsius")).
  reflexivity.
Defined.

(** X11: [convert_to] is idempotent: a second call with the same target
    has the outcome of the first and leaves the record as the first call
    left it. *)
Theorem convert_to_twice (target : string) (self : TemperatureRecord) :
  convert_to target (convert_to target self).2 = convert_to target self.
Proof.
  destruct (String.eqb_spec (lower target) (scale self)) as [Heq|Hne].
  - rewrite (convert_to_same_scale target self Heq). cbn [snd].
    apply convert_to_same_scale. assumption.
  - rewrite (convert_to_other_scale target self Hne).
    destruct (comprehension _ (readings self)) as [c|e] eqn:Ec; cbn [snd].
    + apply convert_to_same_scale. reflexivity.
    + rewrite (convert_to_other_scale target self Hne), Ec. reflexivity.
Qed.

(** X12: [convert_to] never changes the date of the record nor the number
    of its readings, whether it converts, does nothing or raises. *)
Theorem convert_to_keeps_date_and_count
  (target : string) (self : TemperatureRecord) :
  date (convert_to target self).2 = date self /\
  length (readings (convert_to target self).2) = length (readings self).
Proof.
  destruct (String.eqb_spec (lower target) (scale self)) as [Heq|Hne].
  - rewrite (convert_to_same_scale target self Heq). split; reflexivity.
  - rewrite (convert_to_other_scale target self Hne).
    destruct (comprehension _ (readings self)) as [c|e] eqn:Ec; cbn [snd].
    + split; [reflexivity |]. cbn [readings].
      eapply comprehension_length. exact Ec.
    + split; reflexivity.
Qed.

(** ** analytics.py: the hottest day, further *)

Lemma avg_in_celsius_raises_iff (record : TemperatureRecord) :
  (exists e, avg_in_celsius record = Raise e) <->
  (readings record <> [] /\ ~ valid_scale (scale record)).
Proof.
  split.
  - intros [e He]. unfold avg_in_celsius in He.
    destruct (truthy (readings record)) eqn:Et; cbn [negb] in He;
      [| discriminate].
    split; [apply truthy_true; assumption |].
    intros Hvalid. destruct (avg_in_celsius_returns record Hvalid) as [k Hk].
    unfold avg_in_celsius in Hk. rewrite Et in Hk. cbn [negb] in Hk.
    congruence.
  - intros [Hne Hinvalid]. unfold avg_in_celsius.
    apply truthy_true in Hne as Ht. rewrite Ht. cbn [negb].
    destruct (readings record) as [|x rest]; [congruence |].
    cbn [comprehension].
    rewrite (convert_invalid_original x (scale record) "celsius" Hinvalid).
    cbn [bind]. eexists. reflexivity.
Qed.

Lemma max_key_loop_raises {A : Type} (key : A -> result float)
  (maxitem : A) (maxval : float) (rest : list A) :
  Exists (fun item => exists e, key item = Raise e) rest ->
  exists e, max_key_loop key maxitem maxval rest = Raise e.
Proof.
  intros H. revert maxitem maxval.
  induction H as [item rest [e He]|item rest _ IH]; intros maxitem maxval;
    cbn [max_key_loop].
  - rewrite He. cbn [bind]. eauto.
  - destruct (key item) as [val|e]; cbn [bind]; [| eauto].
    destruct (B64.ltb maxval val); apply IH.
Qed.

Lemma max_key_loop_In {A : Type} (key : A -> result float)
  (maxitem : A) (maxval : float) (rest : list A) (r : A) :
  max_key_loop key maxitem maxval rest = Ok r -> In r (maxitem :: rest).
Proof.
  revert maxitem maxval. induction rest as [|item rest IH];
    intros maxitem maxval; cbn [max_key_loop].
  - intros H. injection H as ->. left. reflexivity.
  - destruct (key item) as [val|e]; cbn [bind]; [| discriminate].
    destruct (B64.ltb maxval val); intros H; apply IH in H.
    + right. assumption.
    + destruct H as [H|H]; [left; assumption | right; right; assumption].
Qed.

(** X13: [hottest_day] raises exactly when some record has at least one
    reading and a scale that is not valid; records without readings are
    never converted, so their scale is never looked at. *)
Theorem hottest_day_raises_iff (records : list TemperatureRecord) :
  (exists e, hottest_day records = Raise e) <->
  Exists (fun r => readings r <> [] /\ ~ valid_scale (scale r)) records.
Proof.
  unfold hottest_day, py_max_key.
  destruct records as [|r0 rest]; cbn [truthy negb].
  - split; [intros [e He]; discriminate | intros H; inversion H].
  - split.
    + intros [e He].
      destruct (avg_in_celsius r0) as [k0|e0] eqn:E0; cbn [bind] in He.
      * apply Exists_cons_tl.
        destruct (max_key_loop avg_in_celsius r0 k0 rest) as [r|e'] eqn:El;
          cbn [bind] in He; [discriminate |].
        apply max_key_loop_raise in El. destruct El as (item & Hin & Hitem).
        apply List.Exists_exists. exists item. split; [assumption |].
        apply avg_in_celsius_raises_iff. eauto.
      * apply Exists_cons_hd. apply avg_in_celsius_raises_iff. eauto.
    + intros H. destruct (avg_in_celsius r0) as [k0|e0] eqn:E0; cbn [bind];
        [| eauto].
      inversion H as [r rs Hr|r rs Hrest]; subst.
      * apply avg_in_celsius_raises_iff in Hr. destruct Hr as [e He].
        congruence.
      * destruct (max_key_loop_raises avg_in_celsius r0 k0 rest) as [e He].
        -- eapply List.Exists_impl; [| exact Hrest].
           intros r Hr. apply avg_in_celsius_raises_iff. exact Hr.
        -- rewrite He. cbn [bind]. eauto.
Qed.

(** X14: when [hottest_day] returns, the result is the date of one of the
    records, or the empty string for an empty list: no date is ever made
    up. *)
Theorem hottest_day_returns_a_recorded_date
  (records : list TemperatureRecord) (d : string) :
  hottest_day records = Ok d ->
  (records = [] /\ d = ""%string) \/
  (exists r, In r records /\ date r = d).
Proof.
  unfold hottest_day, py_max_key.
  destruct records as [|r0 rest]; cbn [truthy negb].
  - intros H. injection H as <-. left. auto.
  - destruct (avg_in_celsius r0) as [k0|e0]; cbn [bind]; [| discriminate].
    destruct (max_key_loop avg_in_celsius r0 k0 rest) as [r|e] eqn:El;
      cbn [bind]; [| discriminate].
    intros H. injection H as <-. right. exists r. split; [| reflexivity].
    eapply max_key_loop_In. exact El.
Qed.

Lemma hottest_day_returns_a_recorded_date_witness :
  (([init "day1" [B64.of_int 10; B64.of_int 12] "celsius";
     init "day2" [B64.of_int 20; B64.of_int 22] "celsius"] = []
    /\ "day2"%string = ""%string) \/
   exists r,
     In r [init "day1" [B64.of_int 10; B64.of_int 12] "celsius";
           init "day2" [B64.of_int 20; B64.of_int 22] "celsius"] /\
     date r = "day2"%string).
Proof.
  apply (hottest_day_returns_a_recorded_date
           [init "day1" [B64.of_int 10; B64.of_int 12] "celsius";
            init "day2" [B64.of_int 20; B64.of_int 22] "celsius"]).
  vm_compute. reflexivity.
Defined.

Lemma hottest_day_raises_iff_witness :
  exists e,
    hottest_day [init "d1" [] "rankine"; init "d2" [B64.of_int 500] "rankine"]
      = Raise e.
Proof.
  apply (hottest_day_raises_iff
           [init "d1" [] "rankine"; init "d2" [B64.of_int 500] "rankine"]).
  apply Exists_cons_tl. apply Exists_cons_hd. split.
  - simpl. discriminate.
  - unfold valid_scale. simpl. intros H.
    decompose [or] H; discriminate || assumption.
Defined.

(** ** analytics.py: averages *)

Lemma flat_map_readings_nonempty (records : list TemperatureRecord) :
  flat_map readings (List.filter (fun r => truthy (readings r)) records)
  = flat_map readings records.
Proof.
  induction records as [|r rs IH]; [reflexivity |].
  cbn [List.filter flat_map].
  destruct (readings r) as [|x rest] eqn:E; cbn [truthy].
  - exact IH.
  - cbn [flat_map]. rewrite E, IH. reflexivity.
Qed.

(** X15: for a single record, [average_temperature_across_days] returns
    the average that the record's own [get_summary] reports, with or
    without readings. *)
Theorem average_of_one_record_is_its_summary_avg (record : TemperatureRecord) :
  exists s,
    get_summary record = Ok s /\
    average_temperature_across_days [record] = Ok (summary_avg s).
Proof.
  unfold average_temperature_across_days. cbn [flat_map].
  rewrite app_nil_r.
  destruct (readings record) as [|x rest] eqn:E.
  - eexists. split; [apply get_summary_empty; assumption |]. reflexivity.
  - assert (Hne : readings record <> []) by congruence.
    destruct (get_summary_nonempty record Hne) as (lo & hi & _ & _ & Hs).
    eexists. split; [exact Hs |]. rewrite <- E.
    apply truthy_true in Hne as Ht. rewrite Ht.
    rewrite truediv_int_nonzero by (apply len_nonzero; assumption).
    reflexivity.
Qed.

(** X16: records without readings do not influence
    [average_temperature_across_days]: dropping them leaves the result
    unchanged, and when no record has a reading the result is 0. *)
Theorem average_ignores_records_without_readings
  (records : list TemperatureRecord) :
  average_temperature_across_days
    (List.filter (fun r => truthy (readings r)) records)
  = average_temperature_across_days records /\
  (Forall (fun r => readings r = []) records ->
   average_temperature_across_days records = Ok B64.zero).
Proof.
  split.
  - unfold average_temperature_across_days.
    rewrite flat_map_readings_nonempty. reflexivity.
  - intros Hall. unfold average_temperature_across_days.
    assert (Hflat : flat_map readings records = []).
    { induction Hall as [|r rs Hr _ IH]; [reflexivity |].
      cbn [flat_map]. rewrite Hr, IH. reflexivity. }
    rewrite Hflat. reflexivity.
Qed.

Lemma average_ignores_records_without_readings_witness :
  average_temperature_across_days
    [init "d1" [] "celsius"; init "d2" [] "kelvin"] = Ok B64.zero.
Proof.
  apply (average_ignores_records_without_readings
           [init "d1" [] "celsius"; init "d2" [] "kelvin"]).
  repeat constructor.
Defined.

(** ** analytics.py: daily ranges, further *)

(** X17: the range stored for a date is the pair of the minimum and the
    maximum that [get_summary] reports for the last record of that date. *)
Theorem daily_range_matches_summary
  (records before after : list TemperatureRecord)
  (record : TemperatureRecord) :
  records = before ++ record :: after ->
  Forall (fun r => date r <> date record) after ->
  exists (result_ : gmap string (float * float)) (s : Summary),
    temperature_range_for_each_day records = Ok result_ /\
    get_summary record = Ok s /\
    result_ !! date record = Some (summary_min s, summary_max s).
Proof.
  intros Hsplit Hafter. unfold temperature_range_for_each_day.
  destruct (range_loop_spec records ∅) as (m & Hm & _ & Hlast).
  destruct (Hlast before record after Hsplit Hafter) as (entry & He & Hlook).
  exists m. destruct (readings record) as [|x rest] eqn:E.
  - eexists. split; [assumption |].
    split; [apply get_summary_empty; assumption |].
    rewrite (day_range_empty record E) in He. injection He as <-. exact Hlook.
  - assert (Hne : readings record <> []) by congruence.
    destruct (get_summary_nonempty record Hne) as (lo & hi & Hlo & Hhi & Hs).
    eexists. split; [assumption |]. split; [exact Hs |]. cbn.
    unfold day_range in He. apply truthy_true in Hne as Ht.
    rewrite Ht, Hlo, Hhi in He. cbn [bind] in He.
    injection He as <-. exact Hlook.
Qed.

Lemma daily_range_matches_summary_witness :
  exists (result_ : gmap string (float * float)) (s : Summary),
    temperature_range_for_each_day
      [init "d1" [B64.of_int 5; B64.of_int 10] "celsius";
       init "d2" [B64.of_int 15] "celsius"] = Ok result_ /\
    get_summary (init "d1" [B64.of_int 5; B64.of_int 10] "celsius") = Ok s /\
    result_ !! date (init "d1" [B64.of_int 5; B64.of_int 10] "celsius")
      = Some (summary_min s, summary_max s).
Proof.
  apply (daily_range_matches_summary
           [init "d1" [B64.of_int 5; B64.of_int 10] "celsius";
            init "d2" [B64.of_int 15] "celsius"]
           [] [init "d2" [B64.of_int 15] "celsius"]).
  - reflexivity.
  - constructor; [simpl; discriminate | constructor].
Defined.

Lemma range_loop_dom (records : list TemperatureRecord)
  (acc m : gmap string (float * float)) :
  range_loop records acc = Ok m ->
  dom m = list_to_set (map date records) ∪ dom acc.
Proof.
  revert acc. induction records as [|r rest IH]; intros acc;
    cbn [range_loop map].
  - intros H. injection H as <-.
    rewrite list_to_set_nil, (left_id_L ∅ (∪)). reflexivity.
  - destruct (day_range r) as [entry|e]; cbn [bind]; [| discriminate].
    intros H. apply IH in H. rewrite H, dom_insert_L, list_to_set_cons.
    rewrite (assoc_L (∪)).
    rewrite (comm_L (∪) (list_to_set (map date rest)) {[date r]}).
    reflexivity.
Qed.

(** X18: the dictionary of daily ranges never has more entries than there
    are records, and has exactly one entry per record when the dates are
    pairwise distinct. *)
Theorem daily_ranges_one_entry_per_date (records : list TemperatureRecord) :
  exists result_ : gmap string (float * float),
    temperature_range_for_each_day records = Ok result_ /\
    (size result_ <= length records)%nat /\
    (NoDup (map date records) -> size result_ = length records).
Proof.
  destruct (temperature_range_returns records) as [m Hm].
  exists m. split; [assumption |].
  unfold temperature_range_for_each_day in Hm.
  apply range_loop_dom in Hm.
  rewrite dom_empty_L, (right_id_L ∅ (∪)) in Hm.
  rewrite <- (size_dom m), Hm. split.
  - clear. induction records as [|r rest IH]; cbn [map length].
    + rewrite list_to_set_nil, size_empty. lia.
    + rewrite list_to_set_cons.
      pose proof (size_union_alt (C := gset string) {[date r]}
                    (list_to_set (map date rest))) as Hu.
      pose proof (subseteq_size (C := gset string)
                    (list_to_set (map date rest) ∖ {[date r]})
                    (list_to_set (map date rest))) as Hsub.
      rewrite size_singleton in Hu.
      assert (size (list_to_set (map date rest) ∖ {[date r]} : gset string)
              <= size (list_to_set (map date rest) : gset string))%nat
        by (apply Hsub, subseteq_difference_l; reflexivity).
      lia.
  - intros Hnodup. rewrite size_list_to_set by assumption.
    apply length_map.
Qed.

Lemma daily_ranges_one_entry_per_date_witness :
  exists result_ : gmap string (float * float),
    temperature_range_for_each_day
      [init "d1" [B64.of_int 5] "celsius"; init "d2" [] "celsius"]
      = Ok result_ /\
    size result_ = 2%nat.
Proof.
  destruct (daily_ranges_one_entry_per_date
              [init "d1" [B64.of_int 5] "celsius"; init "d2" [] "celsius"])
    as (m & Hm & _ & Hsize).
  exists m. split; [exact Hm |]. apply Hsize.
  simpl. apply NoDup_cons. split; [| apply NoDup_singleton].
  rewrite list_elem_of_singleton. discriminate.
Defined.

Lemma max_key_loop_skips_lowest {A : Type} (key : A -> result float)
  (before after : list A) (item maxitem : A) (maxval : float) :
  key item = Ok B64.neg_inf ->
  max_key_loop key maxitem maxval (before ++ item :: after) =
  max_key_loop key maxitem maxval (before ++ after).
Proof.
  intros Hkey. revert maxitem maxval.
  induction before as [|b before IH]; intros maxitem maxval;
    cbn [app max_key_loop].
  - rewrite Hkey. cbn [bind].
    destruct (B64.ltb maxval B64.neg_inf) eqn:E; [| reflexivity].
    exfalso. exact (not_flt_neg_inf maxval E).
  - destruct (key b) as [val|e]; cbn [bind]; [| reflexivity].
    destruct (B64.ltb maxval val); apply IH.
Qed.

(** X19: a record without readings that is not the first record never
    changes the outcome of [hottest_day]: the result, or the error, is the
    one obtained with that record left out. *)
Theorem hottest_day_ignores_later_record_without_readings
  (first : TemperatureRecord) (before after : list TemperatureRecord)
  (record : TemperatureRecord) :
  readings record = [] ->
  hottest_day (first :: before ++ record :: after) =
  hottest_day (first :: before ++ after).
Proof.
  intros Hempty. unfold hottest_day, py_max_key. cbn [truthy negb].
  destruct (avg_in_celsius first) as [k|e]; cbn [bind]; [| reflexivity].
  rewrite (max_key_loop_skips_lowest avg_in_celsius before after record first k
             (avg_in_celsius_empty record Hempty)).
  reflexivity.
Qed.

Lemma hottest_day_ignores_later_record_without_readings_witness :
  hottest_day
    [init "d1" [B64.of_int (-300)] "celsius"; init "d2" [] "celsius"] =
  hottest_day [init "d1" [B64.of_int (-300)] "celsius"].
Proof.
  apply (hottest_day_ignores_later_record_without_readings
           (init "d1" [B64.of_int (-300)] "celsius") [] []
           (init "d2" [] "celsius")).
  reflexivity.
Defined.

(** ** converter.py: values that are not finite *)

(** X20: between valid scales [convert] never rejects a value and passes a
    nan and the two infinities through unchanged, whatever the pair of
    scales. *)
Theorem convert_passes_non_finite_values (x : float) (A B : string) :
  valid_scale A -> valid_scale B ->
  x = B64.nan \/ x = B64.pos_inf \/ x = B64.neg_inf ->
  convert x A B = Ok x.
Proof.
  intros HA HB Hx.
  apply valid_scale_cases in HA, HB.
  unfold convert, Converter.convert.
  destruct HA as [HA|[HA|HA]], HB as [HB|[HB|HB]], Hx as [Hx|[Hx|Hx]];
    rewrite HA, HB, Hx; vm_compute; reflexivity.
Qed.

Lemma convert_passes_non_finite_values_witness :
  convert B64.neg_inf "Kelvin" "FAHRENHEIT" = Ok B64.neg_inf.
Proof.
  apply (convert_passes_non_finite_values B64.neg_inf "Kelvin" "FAHRENHEIT").
  - unfold valid_scale. simpl. auto.
  - unfold valid_scale. simpl. auto.
  - right. right. reflexivity.
Defined.

(** ** analytics.py: records processed in two batches *)

Lemma range_loop_app (batch1 batch2 : list TemperatureRecord)
  (acc : gmap string (float * float)) :
  range_loop (batch1 ++ batch2) acc =
  let* m := range_loop batch1 acc in range_loop batch2 m.
Proof.
  revert acc. induction batch1 as [|r rest IH]; intros acc;
    cbn [app range_loop bind]; [reflexivity |].
  destruct (day_range r) as [entry|e]; cbn [bind]; [apply IH | reflexivity].
Qed.

Lemma range_loop_union (records : list TemperatureRecord)
  (acc m : gmap string (float * float)) :
  range_loop records acc = Ok m ->
  exists m0, range_loop records ∅ = Ok m0 /\ m = m0 ∪ acc.
Proof.
  revert acc m. induction records as [|r rest IH]; intros acc m;
    cbn [range_loop].
  - intros H. injection H as <-. exists ∅. split; [reflexivity |].
    rewrite (left_id_L ∅ (∪)). reflexivity.
  - destruct (day_range r) as [entry|e]; cbn [bind]; [| discriminate].
    intros H. destruct (IH _ _ H) as (m1 & Hm1 & ->).
    destruct (range_loop_spec rest (<[date r := entry]> ∅)) as (m0 & Hm0 & _).
    destruct (IH _ _ Hm0) as (m1' & Hm1' & ->).
    assert (m1' = m1) by congruence. subst m1'.
    exists (m1 ∪ <[date r := entry]> ∅). split; [assumption |].
    rewrite <- (assoc_L (∪)). f_equal.
    rewrite !insert_union_singleton_l.
    rewrite (right_id_L ∅ (∪)). reflexivity.
Qed.

(** X21: processing the records in two batches and merging gives the
    result of processing them at once: the extreme days of the batches are
    concatenated, and the daily ranges are united with the entries of the
    later batch taking precedence. *)
Theorem batches_can_be_merged
  (batch1 batch2 : list TemperatureRecord) (threshold : float) :
  detect_extreme_days (batch1 ++ batch2) threshold =
    detect_extreme_days batch1 threshold ++
    detect_extreme_days batch2 threshold /\
  exists m1 m2 : gmap string (float * float),
    temperature_range_for_each_day batch1 = Ok m1 /\
    temperature_range_for_each_day batch2 = Ok m2 /\
    temperature_range_for_each_day (batch1 ++ batch2) = Ok (m2 ∪ m1).
Proof.
  split.
  - unfold detect_extreme_days. rewrite List.filter_app, map_app. reflexivity.
  - unfold temperature_range_for_each_day.
    destruct (range_loop_spec batch1 ∅) as (m1 & Hm1 & _).
    destruct (range_loop_spec batch2 m1) as (m & Hm & _).
    destruct (range_loop_union batch2 m1 m Hm) as (m2 & Hm2 & ->).
    exists m1, m2. split; [assumption |]. split; [assumption |].
    rewrite range_loop_app, Hm1. cbn [bind]. exact Hm.
Qed.
